(** * Aurora chase: the per-frame simulation of [src/app/page.tsx]

    A shallow embedding of the game loop of the page component: the key
    handlers, [initializePositions] (run at start-up and by the resize
    observer), [step] (one animation frame) and [updateUiState] (the throttled
    publication of the metrics), followed by the properties of the
    specification that concern them.

    Modelling choices.
    - A JavaScript [number] that holds a coordinate, a time or a metric is a
      real number ([R]); [Math.hypot], [Math.min] and [Math.max] are [sqrt] of
      the sum of squares, [Rmin] and [Rmax].  Rounding and infinities are
      outside the model, and so is NaN but for the one place the code can
      make it: the input vector of a frame ([Input]).  Counters and indices
      are [nat] or [Z].
    - Every [useRef] cell of [useGame] is a field of [State]; a callback is a
      function from [State] to [State].  The cells are only reached through
      the closure of the effect, and the collectible objects only through
      [collectiblesRef], so in-place mutation is a plain functional update.
    - What a callback reads from the host is an argument: the animation
      timestamp, [performance.now()], the canvas' client size and the stream
      of [Math.random()] draws.
    - [drawScene], [setup] and the scheduling of the next frame do not touch
      the simulation state and are left out. *)

From Stdlib Require Import Reals Lra Lia List String Ascii ZArith Bool Arith.
From Stdlib Require Import Permutation.
Import ListNotations.

Module Game.

Open Scope R_scope.

(** ** Data model *)

Record Vec2 : Type := { x : R; y : R }.

Record Collectible : Type := {
  id : nat;
  position : Vec2;
  taken : bool;
  spin : R
}.

Record UiState : Type := {
  time : R;
  collected : nat;
  distance : R;
  pace : R
}.

Definition SPEED : R := 280.
Definition FOLLOW_DELAY : Z := 34.
Definition TRAIL_LIMIT : nat := 180.
Definition EDGE_PADDING : R := 80.
Definition UI_INTERVAL : R := 120.

(** What [KEY_DIRECTIONS[key]] evaluates to.  The table is a plain object,
    so the lookup follows the prototype chain: besides its eight entries it
    finds the members every object inherits from [Object.prototype], which
    are functions (an object for [__proto__]): truthy values without an [x]
    or a [y]. *)
Inductive Member : Type :=
| entry (direction : Vec2)     (* one of the eight entries of the table *)
| inherited                    (* a member of Object.prototype *)
| undefined.                   (* no such property *)

Definition objectPrototype : list string :=
  [ "constructor"; "__proto__"; "hasOwnProperty"; "isPrototypeOf";
    "propertyIsEnumerable"; "toLocaleString"; "toString"; "valueOf";
    "__defineGetter__"; "__defineSetter__";
    "__lookupGetter__"; "__lookupSetter__" ]%string.

Definition KEY_DIRECTIONS (key : string) : Member :=
  if String.eqb key "arrowup" then entry {| x := 0; y := -1 |}
  else if String.eqb key "w" then entry {| x := 0; y := -1 |}
  else if String.eqb key "arrowdown" then entry {| x := 0; y := 1 |}
  else if String.eqb key "s" then entry {| x := 0; y := 1 |}
  else if String.eqb key "arrowleft" then entry {| x := -1; y := 0 |}
  else if String.eqb key "a" then entry {| x := -1; y := 0 |}
  else if String.eqb key "arrowright" then entry {| x := 1; y := 0 |}
  else if String.eqb key "d" then entry {| x := 1; y := 0 |}
  else if existsb (String.eqb key) objectPrototype then inherited
  else undefined.

(** JavaScript truthiness of a number: every number but zero. *)
Definition truthy (r : R) : bool :=
  if Req_dec_T r 0 then false else true.

Definition clamp (value min max : R) : R :=
  Rmin (Rmax value min) max.

Definition length (v : Vec2) : R :=
  sqrt (x v * x v + y v * y v).

Definition normalize (vector : Vec2) : Vec2 :=
  let len := length vector in
  if negb (truthy len) then {| x := 0; y := 0 |}
  else {| x := x vector / len; y := y vector / len |}.

Definition interpolate (from to : Vec2) (factor : R) : Vec2 :=
  {| x := x from + (x to - x from) * factor;
     y := y from + (y to - y from) * factor |}.

(** [random k] is the value of the [k]-th call of [Math.random()] made by
    one call of [generateCollectibles]: three per collectible, in the order
    x, y, spin. *)
Definition generateCollectibles
    (random : nat -> R) (width height : R) : list Collectible :=
  let count := 6%nat in
  let margin := EDGE_PADDING + 30 in
  map (fun index =>
         {| id := index;
            position :=
              {| x := margin + random (3 * index)%nat * (width - margin * 2);
                 y := margin + random (3 * index + 1)%nat
                               * (height - margin * 2) |};
            taken := false;
            spin := random (3 * index + 2)%nat * PI * 2 |})
      (seq 0 count).

(** ** The state held in the refs of [useGame] *)

Record State : Type := {
  lastTimestamp : option R;
  aksRef : Vec2;
  oliveRef : Vec2;
  aksDirectionRef : Vec2;
  oliveDirectionRef : Vec2;
  pressedKeysRef : list string;
  trailRef : list Vec2;
  collectiblesRef : list Collectible;
  collectedRef : nat;
  timeRef : R;
  lastUiUpdate : R;
  uiState : UiState;
  ready : bool
}.

(** The refs as [useGame] creates them, before the effect has run. *)
Definition useGame : State :=
  {| lastTimestamp := None;
     aksRef := {| x := 0; y := 0 |};
     oliveRef := {| x := 0; y := 0 |};
     aksDirectionRef := {| x := 1; y := 0 |};
     oliveDirectionRef := {| x := 1; y := 0 |};
     pressedKeysRef := [];
     trailRef := [];
     collectiblesRef := [];
     collectedRef := 0;
     timeRef := 0;
     lastUiUpdate := 0;
     uiState := {| time := 0; collected := 0; distance := 0; pace := 0 |};
     ready := false |}.

Definition initializePositions
    (random : nat -> R) (width height : R) (st : State) : State :=
  let aks := {| x := width * 0.65; y := height * 0.55 |} in
  let olive := {| x := width * 0.5; y := height * 0.6 |} in
  {| lastTimestamp := None;
     aksRef := aks;
     oliveRef := olive;
     aksDirectionRef := aksDirectionRef st;
     oliveDirectionRef := oliveDirectionRef st;
     pressedKeysRef := pressedKeysRef st;
     trailRef := [olive];
     collectiblesRef := generateCollectibles random width height;
     collectedRef := 0;
     timeRef := 0;
     lastUiUpdate := lastUiUpdate st;
     uiState := uiState st;
     ready := true |}.

(** ** Key handlers

    [pressedKeysRef] is a JavaScript [Set]: insertion-ordered, no
    duplicates. *)

Definition lowerAscii (c : ascii) : ascii :=
  let n := nat_of_ascii c in
  if ((65 <=? n) && (n <=? 90))%nat then ascii_of_nat (n + 32) else c.

(** [String.prototype.toLowerCase] on the ASCII range. *)
Fixpoint toLowerCase (s : string) : string :=
  match s with
  | EmptyString => EmptyString
  | String c rest => String (lowerAscii c) (toLowerCase rest)
  end.

Definition setAdd (key : string) (keys : list string) : list string :=
  if in_dec string_dec key keys then keys else keys ++ [key].

Definition setDelete (key : string) (keys : list string) : list string :=
  filter (fun k => negb (String.eqb k key)) keys.

Definition withPressedKeys (keys : list string) (st : State) : State :=
  {| lastTimestamp := lastTimestamp st;
     aksRef := aksRef st;
     oliveRef := oliveRef st;
     aksDirectionRef := aksDirectionRef st;
     oliveDirectionRef := oliveDirectionRef st;
     pressedKeysRef := keys;
     trailRef := trailRef st;
     collectiblesRef := collectiblesRef st;
     collectedRef := collectedRef st;
     timeRef := timeRef st;
     lastUiUpdate := lastUiUpdate st;
     uiState := uiState st;
     ready := ready st |}.

Definition handleKeyDown (eventKey : string) (st : State) : State :=
  let key := toLowerCase eventKey in
  match KEY_DIRECTIONS key with
  | undefined => st
  | entry _ | inherited => withPressedKeys (setAdd key (pressedKeysRef st)) st
  end.

Definition handleKeyUp (eventKey : string) (st : State) : State :=
  let key := toLowerCase eventKey in
  match KEY_DIRECTIONS key with
  | undefined => st
  | entry _ | inherited =>
      withPressedKeys (setDelete key (pressedKeysRef st)) st
  end.

(** ** One animation frame *)

(** What [step] reads from the host during one frame. *)
Record Frame : Type := {
  timestamp : R;          (* the argument of the animation callback *)
  now : R;                (* performance.now() in updateUiState *)
  clientWidth : R;        (* canvas.clientWidth *)
  clientHeight : R;       (* canvas.clientHeight *)
  random : nat -> R       (* Math.random() draws of this frame *)
}.

(** [delta]: seconds since the previous frame, zero on the first one. *)
Definition delta (f : Frame) (st : State) : R :=
  let last :=
    match lastTimestamp st with
    | None => timestamp f
    | Some t => t
    end in
  (timestamp f - last) / 1000.

(** The input vector while the pressed keys are summed: real coordinates,
    or NaN in both once a truthy lookup without [x] and [y] has been added
    ([number + undefined] is NaN, and NaN plus anything stays NaN). *)
Inductive Input : Type :=
| finite (v : Vec2)
| notANumber.

(** The body of the [forEach] over the pressed keys: a truthy lookup adds
    its [x] and [y] to the input vector. *)
Definition accumulate (acc : Input) (key : string) : Input :=
  match KEY_DIRECTIONS key with
  | entry direction =>
      match acc with
      | finite v =>
          finite {| x := x v + x direction; y := y v + y direction |}
      | notANumber => notANumber
      end
  | inherited => notANumber
  | undefined => acc
  end.

(** The [forEach] over the pressed keys, in insertion order. *)
Definition inputVector (keys : list string) : Input :=
  fold_left accumulate keys (finite {| x := 0; y := 0 |}).

(** [normalize] on the input vector: on NaN coordinates [Math.hypot] is
    NaN, which [!len] takes for zero. *)
Definition normalizeInput (vector : Input) : Vec2 :=
  match vector with
  | finite v => normalize v
  | notANumber => {| x := 0; y := 0 |}
  end.

Definition normalizedInput (st : State) : Vec2 :=
  normalizeInput (inputVector (pressedKeysRef st)).

(** The guard [normalizedInput.x || normalizedInput.y]. *)
Definition hasInput (st : State) : bool :=
  truthy (x (normalizedInput st)) || truthy (y (normalizedInput st)).

Definition clampToWalkway (p : Vec2) (width height : R) : Vec2 :=
  {| x := clamp (x p) EDGE_PADDING (width - EDGE_PADDING);
     y := clamp (y p) EDGE_PADDING (height - EDGE_PADDING) |}.

(** [aksRef.current] after the leader update. *)
Definition moveAks (f : Frame) (st : State) : Vec2 :=
  let aks := aksRef st in
  let n := normalizedInput st in
  if hasInput st then
    clampToWalkway
      {| x := x aks + x n * SPEED * delta f st;
         y := y aks + y n * SPEED * delta f st |}
      (clientWidth f) (clientHeight f)
  else aks.

Definition moveAksDirection (st : State) : Vec2 :=
  if hasInput st then normalizedInput st else aksDirectionRef st.

(** [push] of the leader's position, then [shift] above the limit. *)
Definition pushTrail (trail : list Vec2) (aks : Vec2) : list Vec2 :=
  let pushed := trail ++ [aks] in
  if (TRAIL_LIMIT <? List.length pushed)%nat then tl pushed else pushed.

Definition targetIndex (trail : list Vec2) : Z :=
  Z.max 0 (Z.of_nat (List.length trail) - 1 - FOLLOW_DELAY).

(** [trailRef.current[targetIndex] ?? aksRef.current]. *)
Definition followTarget (trail : list Vec2) (aks : Vec2) : Vec2 :=
  match nth_error trail (Z.to_nat (targetIndex trail)) with
  | Some point => point
  | None => aks
  end.

Definition followVector (target olive : Vec2) : Vec2 :=
  {| x := x target - x olive; y := y target - y olive |}.

Definition stepFactor (dt : R) : R := Rmin 1 (dt * 6).

Definition moveOlive (f : Frame) (st : State) (target : Vec2) : Vec2 :=
  let nextOlive := interpolate (oliveRef st) target (stepFactor (delta f st)) in
  clampToWalkway nextOlive (clientWidth f) (clientHeight f).

Definition moveOliveDirection (st : State) (target : Vec2) : Vec2 :=
  let v := followVector target (oliveRef st) in
  if Rlt_dec 1 (length v) then normalize v else oliveDirectionRef st.

Definition distanceToAks (collectible : Collectible) (aks : Vec2) : R :=
  length {| x := x (position collectible) - x aks;
            y := y (position collectible) - y aks |}.

(** The body of the [forEach] over the collectibles, threading the
    collected counter. *)
Definition visitCollectible
    (aks : Vec2) (dt : R) (collectible : Collectible) (count : nat)
    : Collectible * nat :=
  if taken collectible then (collectible, count)
  else
    let near := if Rlt_dec (distanceToAks collectible aks) 30
                then true else false in
    ({| id := id collectible;
        position := position collectible;
        taken := if near then true else taken collectible;
        spin := spin collectible + dt * 1.6 |},
     if near then S count else count).

Fixpoint visitCollectibles
    (aks : Vec2) (dt : R) (batch : list Collectible) (count : nat)
    : list Collectible * nat :=
  match batch with
  | [] => ([], count)
  | collectible :: rest =>
      let (collectible', count') := visitCollectible aks dt collectible count in
      let (rest', count'') := visitCollectibles aks dt rest count' in
      (collectible' :: rest', count'')
  end.

(** The regeneration of a batch whose every collectible is taken. *)
Definition refreshCollectibles
    (f : Frame) (batch : list Collectible) : list Collectible :=
  if forallb taken batch
  then generateCollectibles (random f) (clientWidth f) (clientHeight f)
  else batch.

(** [updateUiState] on refs holding [elapsed] and [count]: the new
    [lastUiUpdate] and the metrics passed to [setUiState], if any. *)
Definition updateUiState
    (nowMs lastUpdate elapsed : R) (count : nat) (dist : R)
    : R * option UiState :=
  if Rlt_dec (nowMs - lastUpdate) UI_INTERVAL then (lastUpdate, None)
  else
    (nowMs,
     Some {| time := elapsed;
             collected := count;
             distance := dist;
             pace := if Nat.eqb count 0 then 0 else elapsed / INR count |}).

(** [step]: the new state and the metrics published by this frame. *)
Definition step (f : Frame) (st : State) : State * option UiState :=
  let dt := delta f st in
  let aks := moveAks f st in
  let trail := pushTrail (trailRef st) aks in
  let target := followTarget trail aks in
  let olive := moveOlive f st target in
  let (visited, count) :=
    visitCollectibles aks dt (collectiblesRef st) (collectedRef st) in
  let elapsed := timeRef st + dt in
  let pairDistance :=
    length {| x := x aks - x olive; y := y aks - y olive |} in
  let (lastUpdate, published) :=
    updateUiState (now f) (lastUiUpdate st) elapsed count pairDistance in
  ({| lastTimestamp := Some (timestamp f);
      aksRef := aks;
      oliveRef := olive;
      aksDirectionRef := moveAksDirection st;
      oliveDirectionRef := moveOliveDirection st target;
      pressedKeysRef := pressedKeysRef st;
      trailRef := trail;
      collectiblesRef := refreshCollectibles f visited;
      collectedRef := count;
      timeRef := elapsed;
      lastUiUpdate := lastUpdate;
      uiState := match published with
                 | Some ui => ui
                 | None => uiState st
                 end;
      ready := ready st |},
   published).

(** ** The metrics panel: the "Avg Pace" entry of [metrics] *)

Inductive Shown : Type :=
| Dashes                              (* the text "--" *)
| SecondsPerStar (value : R).         (* the pace, one digit, "s / star" *)

Definition avgPace (ui : UiState) : Shown :=
  if Req_dec_T (pace ui) 0 then Dashes else SecondsPerStar (pace ui).

(** ** Event loop *)

Inductive Event : Type :=
| KeyDown (key : string)
| KeyUp (key : string)
| Resize (rnd : nat -> R) (width height : R)
| Tick (f : Frame).

Definition handle (e : Event) (st : State) : State * option UiState :=
  match e with
  | KeyDown key => (handleKeyDown key st, None)
  | KeyUp key => (handleKeyUp key st, None)
  | Resize rnd width height => (initializePositions rnd width height st, None)
  | Tick f => step f st
  end.

(** The state after a sequence of events, and the wall-clock times and
    values of the publications made on the way, oldest first. *)
Fixpoint run (events : list Event) (st : State) : State * list (R * UiState) :=
  match events with
  | [] => (st, [])
  | e :: rest =>
      let (st', published) := handle e st in
      let (final, later) := run rest st' in
      (final,
       match e, published with
       | Tick f, Some ui => (now f, ui) :: later
       | _, _ => later
       end)
  end.

(** A run of frames only. *)
Definition runFrames (frames : list Frame) (st : State) : State :=
  fold_left (fun s f => fst (step f s)) frames st.

(** The leader's position after each frame of a run, oldest first. *)
Fixpoint leaderPath (frames : list Frame) (st : State) : list Vec2 :=
  match frames with
  | [] => []
  | f :: rest =>
      let st' := fst (step f st) in
      aksRef st' :: leaderPath rest st'
  end.

(** ** Vocabulary of the properties *)

Definition zero : Vec2 := {| x := 0; y := 0 |}.

(** The last [n] elements of a list. *)
Definition lastn {A : Type} (n : nat) (l : list A) : list A :=
  skipn (List.length l - n) l.

(** The walkway: the play area less [EDGE_PADDING] on every side. *)
Definition inWalkway (width height : R) (p : Vec2) : Prop :=
  EDGE_PADDING <= x p <= width - EDGE_PADDING
  /\ EDGE_PADDING <= y p <= height - EDGE_PADDING.

(** The rectangle collectibles spawn in: inset by [EDGE_PADDING + 30]. *)
Definition inInset (width height : R) (p : Vec2) : Prop :=
  EDGE_PADDING + 30 <= x p <= width - (EDGE_PADDING + 30)
  /\ EDGE_PADDING + 30 <= y p <= height - (EDGE_PADDING + 30).

(** The keys of each direction, and how many of them a key set holds. *)
Definition upKeys : list string := ["arrowup"; "w"]%string.
Definition downKeys : list string := ["arrowdown"; "s"]%string.
Definition leftKeys : list string := ["arrowleft"; "a"]%string.
Definition rightKeys : list string := ["arrowright"; "d"]%string.

Definition held (names keys : list string) : nat :=
  List.length (filter (fun key => existsb (String.eqb key) names) keys).

(** The sum of the unit directions of the held direction keys. *)
Definition heldSum (keys : list string) : Vec2 :=
  {| x := INR (held rightKeys keys) - INR (held leftKeys keys);
     y := INR (held downKeys keys) - INR (held upKeys keys) |}.

(** A key named like a member every object inherits. *)
Definition isInherited (key : string) : bool :=
  match KEY_DIRECTIONS key with
  | inherited => true
  | entry _ | undefined => false
  end.

(** The collectibles of a batch that the leader at [aks] picks up. *)
Definition picked (aks : Vec2) (collectible : Collectible) : bool :=
  negb (taken collectible)
  && (if Rlt_dec (distanceToAks collectible aks) 30 then true else false).

Definition pickups (aks : Vec2) (batch : list Collectible) : nat :=
  List.length (filter (picked aks) batch).

(** Every draw of [Math.random()] lies in [0, 1). *)
Definition unitDraws (random : nat -> R) : Prop :=
  forall k, 0 <= random k < 1.

(** Publication times, each at least [UI_INTERVAL] after the one before,
    the first at least [UI_INTERVAL] after [last]. *)
Fixpoint spaced (last : R) (times : list R) : Prop :=
  match times with
  | [] => True
  | t :: later => UI_INTERVAL <= t - last /\ spaced t later
  end.

(** The states the event loop can be in. *)
Definition reachable (st : State) : Prop :=
  exists events, st = fst (run events useGame).

(** A session started on a play area of the given size, with every random
    draw equal to [draw], and a frame of it on which the host reports that
    size and wall-clock time [t]. *)
Definition started (draw width height : R) : State :=
  initializePositions (fun _ => draw) width height useGame.

Definition frameAt (draw width height t : R) : Frame :=
  {| timestamp := t;
     now := t;
     clientWidth := width;
     clientHeight := height;
     random := fun _ => draw |}.

(** ** Canvas paths

    [drawStar] and [drawRoundedRect] only talk to the 2D context they are
    given: each is the list of the context calls it makes, in order. *)

Inductive CanvasOp : Type :=
| save
| restore
| translate (tx ty : R)
| rotate (angle : R)
| beginPath
| moveTo (px py : R)
| lineTo (px py : R)
| quadraticCurveTo (cpx cpy px py : R)
| closePath
| fillStyle (color : string)
| shadowColor (color : string)
| shadowBlur (blur : R)
| fill.

Definition drawStar
    (position : Vec2) (radius rotation : R) (color : string)
    : list CanvasOp :=
  let spikes := 5%nat in
  let outerRadius := radius in
  let innerRadius := radius * 0.46 in
  [save; translate (x position) (y position); rotate rotation; beginPath]
  ++ map (fun i =>
            let angle := PI / INR spikes * INR i in
            let currentRadius :=
              if Nat.eqb (i mod 2) 0 then outerRadius else innerRadius in
            lineTo (cos angle * currentRadius) (sin angle * currentRadius))
         (seq 0 (spikes * 2))
  ++ [closePath; fillStyle color;
      shadowColor "rgba(255, 255, 255, 0.3)"; shadowBlur (radius * 1.6);
      fill; restore].

Definition drawRoundedRect (rx ry width height radius : R) : list CanvasOp :=
  let r := Rmin (Rmin radius (width / 2)) (height / 2) in
  [beginPath;
   moveTo (rx + r) ry;
   lineTo (rx + width - r) ry;
   quadraticCurveTo (rx + width) ry (rx + width) (ry + r);
   lineTo (rx + width) (ry + height - r);
   quadraticCurveTo (rx + width) (ry + height) (rx + width - r) (ry + height);
   lineTo (rx + r) (ry + height);
   quadraticCurveTo rx (ry + height) rx (ry + height - r);
   lineTo rx (ry + r);
   quadraticCurveTo rx ry (rx + r) ry;
   closePath].

(** *** Vocabulary for the further properties *)

(** The points a path is drawn through, control points included. *)
Definition opPoints (op : CanvasOp) : list Vec2 :=
  match op with
  | moveTo px py => [{| x := px; y := py |}]
  | lineTo px py => [{| x := px; y := py |}]
  | quadraticCurveTo cpx cpy px py =>
      [{| x := cpx; y := cpy |}; {| x := px; y := py |}]
  | _ => []
  end.

Definition pathPoints (ops : list CanvasOp) : list Vec2 :=
  flat_map opPoints ops.

(** The vertices of a polygon drawn with [lineTo] only. *)
Definition vertices (ops : list CanvasOp) : list Vec2 :=
  flat_map (fun op => match op with
                      | lineTo px py => [{| x := px; y := py |}]
                      | _ => []
                      end) ops.

(** An event of a session on a canvas that keeps its size, with every
    random draw in [0, 1). *)
Definition steadyEvent (width height : R) (e : Event) : Prop :=
  match e with
  | Resize rnd w h => w = width /\ h = height /\ unitDraws rnd
  | Tick f =>
      clientWidth f = width /\ clientHeight f = height
      /\ unitDraws (random f)
  | KeyDown _ | KeyUp _ => True
  end.

(** Everything on screen is where it belongs: both actors and the whole
    trail on the walkway, six collectibles, all in the inset rectangle. *)
Definition onStage (width height : R) (st : State) : Prop :=
  inWalkway width height (aksRef st)
  /\ inWalkway width height (oliveRef st)
  /\ Forall (inWalkway width height) (trailRef st)
  /\ List.length (collectiblesRef st) = 6%nat
  /\ Forall (fun c => inInset width height (position c)) (collectiblesRef st).

(** The displacement between two points. *)
Definition between (from to : Vec2) : Vec2 :=
  {| x := x to - x from; y := y to - y from |}.

End Game.

(** * Properties *)

Module GameSpec.

Import Game.

Open Scope R_scope.

(** ** Projections of [step] *)

(** [step] is a record built under two destructuring [let]s: a field of
    the result shows once both pairs are opened. *)
Ltac step_field :=
  unfold step;
  destruct (visitCollectibles _ _ _ _);
  destruct (updateUiState _ _ _ _ _);
  reflexivity.

Section StepFields.

Variables (f : Frame) (st : State).

Lemma step_aksRef : aksRef (fst (step f st)) = moveAks f st.
Proof. step_field. Qed.

Lemma step_aksDirectionRef :
  aksDirectionRef (fst (step f st)) = moveAksDirection st.
Proof. step_field. Qed.

Lemma step_trailRef :
  trailRef (fst (step f st)) = pushTrail (trailRef st) (moveAks f st).
Proof. step_field. Qed.

Lemma step_oliveRef :
  oliveRef (fst (step f st)) =
  moveOlive f st
    (followTarget (pushTrail (trailRef st) (moveAks f st)) (moveAks f st)).
Proof. step_field. Qed.

Lemma step_pressedKeysRef :
  pressedKeysRef (fst (step f st)) = pressedKeysRef st.
Proof. step_field. Qed.

Lemma step_collectedRef :
  collectedRef (fst (step f st)) =
  snd (visitCollectibles (moveAks f st) (delta f st)
         (collectiblesRef st) (collectedRef st)).
Proof. step_field. Qed.

Lemma step_collectiblesRef :
  collectiblesRef (fst (step f st)) =
  refreshCollectibles f
    (fst (visitCollectibles (moveAks f st) (delta f st)
            (collectiblesRef st) (collectedRef st))).
Proof. step_field. Qed.

Lemma step_timeRef : timeRef (fst (step f st)) = timeRef st + delta f st.
Proof. step_field. Qed.

Lemma step_published :
  let st' := fst (step f st) in
  let pairDistance :=
    length {| x := x (aksRef st') - x (oliveRef st');
              y := y (aksRef st') - y (oliveRef st') |} in
  (lastUiUpdate st', snd (step f st)) =
  updateUiState (now f) (lastUiUpdate st) (timeRef st') (collectedRef st')
    pairDistance.
Proof.
  unfold step.
  destruct (visitCollectibles _ _ _ _) as [visited count].
  destruct (updateUiState _ _ _ _ _) as [lastUpdate published] eqn:E.
  cbn [fst snd aksRef oliveRef timeRef collectedRef lastUiUpdate].
  symmetry; exact E.
Qed.

End StepFields.

(** ** The trail *)

Section Trail.

Open Scope nat_scope.

Lemma lastn_length {A : Type} (n : nat) (l : list A) :
  List.length (lastn n l) = Nat.min n (List.length l).
Proof. unfold lastn. rewrite length_skipn. lia. Qed.

Lemma lastn_skipn {A : Type} (n k : nat) (l : list A) :
  k <= List.length l - n -> lastn n (skipn k l) = lastn n l.
Proof.
  intros Hk. unfold lastn.
  rewrite skipn_skipn, length_skipn.
  f_equal. lia.
Qed.

Lemma lastn_app_short {A : Type} (n : nat) (l1 l2 : list A) :
  n <= List.length l2 -> lastn n (l1 ++ l2) = lastn n l2.
Proof.
  intros Hn. unfold lastn.
  rewrite skipn_app, length_app.
  rewrite skipn_all2 by lia.
  cbn [app]. f_equal. lia.
Qed.

Lemma pushTrail_lastn (trail : list Vec2) (aks : Vec2) :
  List.length trail <= TRAIL_LIMIT ->
  pushTrail trail aks = lastn TRAIL_LIMIT (trail ++ [aks]).
Proof.
  intros Hlen. unfold pushTrail, lastn.
  rewrite length_app. cbn [List.length].
  destruct (Nat.ltb_spec TRAIL_LIMIT (List.length trail + 1)) as [Hover | Hfit].
  - replace (List.length trail + 1 - TRAIL_LIMIT) with 1 by lia.
    reflexivity.
  - replace (List.length trail + 1 - TRAIL_LIMIT) with 0 by lia.
    reflexivity.
Qed.

Lemma pushTrail_length (trail : list Vec2) (aks : Vec2) :
  List.length trail <= TRAIL_LIMIT ->
  List.length (pushTrail trail aks) =
  Nat.min TRAIL_LIMIT (S (List.length trail)).
Proof.
  intros Hlen. rewrite pushTrail_lastn by exact Hlen.
  rewrite lastn_length, length_app. cbn [List.length]. lia.
Qed.

Lemma pushTrail_nonempty (trail : list Vec2) (aks : Vec2) :
  1 <= List.length (pushTrail trail aks).
Proof.
  unfold pushTrail.
  destruct (Nat.ltb_spec TRAIL_LIMIT (List.length (trail ++ [aks])))
    as [Hover | Hfit].
  - destruct (trail ++ [aks]) as [| p [| q rest]] eqn:E; cbn in *;
      unfold TRAIL_LIMIT in Hover; lia.
  - rewrite length_app. cbn. lia.
Qed.

Lemma pushTrail_last (trail : list Vec2) (aks d : Vec2) :
  last (pushTrail trail aks) d = aks.
Proof.
  unfold pushTrail.
  destruct (Nat.ltb_spec TRAIL_LIMIT (List.length (trail ++ [aks])))
    as [Hover | Hfit].
  - rewrite length_app in Hover. cbn [List.length] in Hover.
    destruct trail as [| p rest].
    + cbn in Hover. unfold TRAIL_LIMIT in Hover. lia.
    + cbn [app tl]. apply last_last.
  - apply last_last.
Qed.

Lemma leaderPath_length (frames : list Frame) (st : State) :
  List.length (leaderPath frames st) = List.length frames.
Proof.
  revert st. induction frames as [| f rest IH]; intros st; cbn.
  - reflexivity.
  - now rewrite IH.
Qed.

Lemma runFrames_cons (f : Frame) (rest : list Frame) (st : State) :
  runFrames (f :: rest) st = runFrames rest (fst (step f st)).
Proof. reflexivity. Qed.

Lemma runFrames_trail (frames : list Frame) (st : State) :
  List.length (trailRef st) <= TRAIL_LIMIT ->
  trailRef (runFrames frames st) =
  lastn TRAIL_LIMIT (trailRef st ++ leaderPath frames st).
Proof.
  revert st. induction frames as [| f rest IH]; intros st Hlen.
  - cbn. rewrite app_nil_r. unfold lastn.
    replace (List.length (trailRef st) - TRAIL_LIMIT) with 0 by lia.
    reflexivity.
  - rewrite runFrames_cons. cbn [leaderPath].
    set (st1 := fst (step f st)).
    assert (Htrail1 : trailRef st1 =
                      lastn TRAIL_LIMIT (trailRef st ++ [aksRef st1])).
    { unfold st1. rewrite step_trailRef, step_aksRef.
      now apply pushTrail_lastn. }
    assert (Hlen1 : List.length (trailRef st1) <= TRAIL_LIMIT).
    { rewrite Htrail1, lastn_length. lia. }
    rewrite IH by exact Hlen1.
    rewrite Htrail1.
    replace (trailRef st ++ aksRef st1 :: leaderPath rest st1)
      with ((trailRef st ++ [aksRef st1]) ++ leaderPath rest st1)
      by now rewrite <- app_assoc.
    set (pushed := trailRef st ++ [aksRef st1]).
    unfold lastn at 2.
    set (k := List.length pushed - TRAIL_LIMIT).
    assert (Hskip : skipn k pushed ++ leaderPath rest st1 =
                    skipn k (pushed ++ leaderPath rest st1)).
    { rewrite skipn_app.
      replace (k - List.length pushed) with 0 by (unfold k; lia).
      reflexivity. }
    rewrite Hskip. apply lastn_skipn.
    unfold k. rewrite length_app. lia.
Qed.

End Trail.

(** ** Vectors *)

Lemma truthy_false (r : R) : truthy r = false <-> r = 0.
Proof.
  unfold truthy. destruct (Req_dec_T r 0); split; intros; congruence.
Qed.

Lemma truthy_true (r : R) : truthy r = true <-> r <> 0.
Proof.
  unfold truthy. destruct (Req_dec_T r 0); split; intros; congruence.
Qed.

Lemma sum_squares_nonneg (a b : R) : 0 <= a * a + b * b.
Proof. nra. Qed.

Lemma length_nonneg (v : Vec2) : 0 <= length v.
Proof. apply sqrt_pos. Qed.

Lemma length_zero_iff (v : Vec2) : length v = 0 <-> x v = 0 /\ y v = 0.
Proof.
  unfold length. split.
  - intros H. apply sqrt_eq_0 in H; [| apply sum_squares_nonneg]. nra.
  - intros [Hx Hy]. rewrite Hx, Hy.
    replace (0 * 0 + 0 * 0) with 0 by ring. apply sqrt_0.
Qed.

Lemma length_square (v : Vec2) :
  length v * length v = x v * x v + y v * y v.
Proof. unfold length. apply sqrt_sqrt, sum_squares_nonneg. Qed.

(** Comparing a length with a radius is comparing the squares. *)
Lemma length_lt_iff (v : Vec2) (r : R) :
  0 <= r -> (length v < r <-> x v * x v + y v * y v < r * r).
Proof.
  intros Hr. rewrite <- length_square.
  pose proof (length_nonneg v). split; intros; nra.
Qed.

Lemma vec2_eq (a b : Vec2) : x a = x b -> y a = y b -> a = b.
Proof. destruct a, b; cbn; intros; subst; reflexivity. Qed.

Lemma normalize_zero (v : Vec2) :
  x v = 0 -> y v = 0 -> normalize v = zero.
Proof.
  intros Hx Hy. unfold normalize.
  assert (Hlen : length v = 0) by now apply length_zero_iff.
  apply truthy_false in Hlen. now rewrite Hlen.
Qed.

Lemma normalize_nonzero (v : Vec2) :
  ~ (x v = 0 /\ y v = 0) ->
  normalize v = {| x := x v / length v; y := y v / length v |}
  /\ 0 < length v.
Proof.
  intros Hv. unfold normalize.
  assert (Hlen : length v <> 0) by now rewrite length_zero_iff.
  pose proof (length_nonneg v).
  apply truthy_true in Hlen as Ht. rewrite Ht. cbn [negb].
  split; [reflexivity | lra].
Qed.

Lemma normalize_unit (v : Vec2) :
  ~ (x v = 0 /\ y v = 0) -> length (normalize v) = 1.
Proof.
  intros Hv. destruct (normalize_nonzero v Hv) as [-> Hpos].
  unfold length at 1. cbn [x y].
  replace (x v / length v * (x v / length v)
           + y v / length v * (y v / length v))
    with ((x v * x v + y v * y v) / (length v * length v))
    by (field; lra).
  rewrite <- length_square.
  replace (length v * length v / (length v * length v)) with 1
    by (field; lra).
  apply sqrt_1.
Qed.

(** The normalized vector vanishes exactly when the vector does. *)
Lemma normalize_zero_iff (v : Vec2) :
  normalize v = zero <-> x v = 0 /\ y v = 0.
Proof.
  split.
  - intros Hn. destruct (Req_dec_T (x v) 0) as [Hx | Hx];
      destruct (Req_dec_T (y v) 0) as [Hy | Hy]; try (split; assumption);
      exfalso;
      (assert (Hunit : length (normalize v) = 1)
         by (apply normalize_unit; tauto));
      rewrite Hn in Hunit;
      (assert (Hz : length zero = 0)
         by (apply length_zero_iff; split; reflexivity));
      lra.
  - intros [Hx Hy]. now apply normalize_zero.
Qed.

(** ** Input sampling *)

Section Input.

Lemma held_cons (names : list string) (key : string) (keys : list string) :
  held names (key :: keys) =
  ((if existsb (String.eqb key) names then 1 else 0) + held names keys)%nat.
Proof.
  unfold held. cbn [filter].
  destruct (existsb (String.eqb key) names); reflexivity.
Qed.

(** What one key contributes: an entry of the table is the unit direction
    of the key lists it belongs to, and no other name is in those lists. *)
Lemma KEY_DIRECTIONS_counts (key : string) :
  match KEY_DIRECTIONS key with
  | entry d =>
      x d = INR (if existsb (String.eqb key) rightKeys then 1 else 0)
            - INR (if existsb (String.eqb key) leftKeys then 1 else 0)
      /\ y d = INR (if existsb (String.eqb key) downKeys then 1 else 0)
               - INR (if existsb (String.eqb key) upKeys then 1 else 0)
  | inherited | undefined =>
      existsb (String.eqb key) rightKeys = false
      /\ existsb (String.eqb key) leftKeys = false
      /\ existsb (String.eqb key) downKeys = false
      /\ existsb (String.eqb key) upKeys = false
  end.
Proof.
  unfold KEY_DIRECTIONS, upKeys, downKeys, leftKeys, rightKeys.
  cbn [existsb].
  repeat match goal with
         | |- context [String.eqb key ?name] =>
             lazymatch name with
             | context [String] =>
                 destruct (String.eqb_spec key name) as [-> | ?]
             end
         end;
    try (cbn; split; lra).
  destruct (existsb (String.eqb key) objectPrototype);
    repeat split; reflexivity.
Qed.

Lemma accumulate_notANumber (keys : list string) :
  fold_left accumulate keys notANumber = notANumber.
Proof.
  induction keys as [| key rest IH]; [reflexivity |].
  cbn [fold_left]. unfold accumulate at 2.
  destruct (KEY_DIRECTIONS key); exact IH.
Qed.

Lemma accumulate_sum (keys : list string) (acc : Vec2) :
  fold_left accumulate keys (finite acc) =
  if existsb isInherited keys then notANumber
  else finite {| x := x acc + x (heldSum keys);
                 y := y acc + y (heldSum keys) |}.
Proof.
  revert acc. induction keys as [| key rest IH]; intros acc.
  - cbn. f_equal. destruct acc. apply vec2_eq; cbn; ring.
  - cbn [fold_left existsb]. unfold accumulate at 2, isInherited at 1.
    pose proof (KEY_DIRECTIONS_counts key) as Hkey.
    destruct (KEY_DIRECTIONS key) as [d | |].
    + cbn [orb]. rewrite IH.
      destruct (existsb isInherited rest); [reflexivity |].
      destruct Hkey as [Hx Hy]. f_equal.
      unfold heldSum. rewrite !held_cons, !plus_INR.
      apply vec2_eq; cbn [x y]; rewrite ?Hx, ?Hy; ring.
    + cbn [orb]. apply accumulate_notANumber.
    + cbn [orb]. rewrite IH.
      destruct (existsb isInherited rest); [reflexivity |].
      destruct Hkey as (Hr & Hl & Hd & Hu). f_equal.
      unfold heldSum. rewrite !held_cons, Hr, Hl, Hd, Hu.
      reflexivity.
Qed.

(** The input vector of any key list: NaN when a held key is named like an
    inherited member, the sum of the held directions otherwise. *)
Lemma inputVector_sum (keys : list string) :
  inputVector keys =
  if existsb isInherited keys then notANumber else finite (heldSum keys).
Proof.
  unfold inputVector. rewrite accumulate_sum.
  destruct (existsb isInherited keys); [reflexivity |].
  f_equal. apply vec2_eq; cbn [x y]; ring.
Qed.



Lemma inputVector_inherited (keys : list string) (key : string) :
  In key keys -> KEY_DIRECTIONS key = inherited ->
  inputVector keys = notANumber.
Proof.
  intros Hin Hkey. rewrite inputVector_sum.
  assert (Hany : existsb isInherited keys = true).
  { apply existsb_exists. exists key. split; [exact Hin |].
    unfold isInherited. now rewrite Hkey. }
  now rewrite Hany.
Qed.


Lemma hasInput_false (st : State) :
  hasInput st = false <-> normalizedInput st = zero.
Proof.
  unfold hasInput. rewrite orb_false_iff, !truthy_false.
  split.
  - intros [Hx Hy]. now apply vec2_eq.
  - intros ->. split; reflexivity.
Qed.

Lemma hasInput_no_keys (st : State) :
  pressedKeysRef st = [] -> hasInput st = false.
Proof.
  intros Hkeys. apply hasInput_false. unfold normalizedInput.
  rewrite Hkeys. cbn [inputVector fold_left normalizeInput].
  now apply normalize_zero.
Qed.

(** A nonzero normalized input is the normalization of a real, nonzero
    input vector: a unit vector. *)
Lemma normalizedInput_unit (st : State) :
  normalizedInput st <> zero -> length (normalizedInput st) = 1.
Proof.
  unfold normalizedInput.
  destruct (inputVector (pressedKeysRef st)) as [v |]; cbn [normalizeInput].
  - intros Hmove. apply normalize_unit. now rewrite <- normalize_zero_iff.
  - intros Hmove. exfalso. now apply Hmove.
Qed.

Lemma normalizedInput_arrowright (st : State) :
  pressedKeysRef st = ["arrowright"%string] -> normalizedInput st <> zero.
Proof.
  intros Hkeys. unfold normalizedInput. rewrite Hkeys.
  cbn [inputVector fold_left accumulate KEY_DIRECTIONS String.eqb Ascii.eqb
       Bool.eqb normalizeInput].
  rewrite normalize_zero_iff. cbn [x y]. lra.
Qed.

End Input.



(** ** Invariants of the event loop *)

Section Reachability.

Variable P : State -> Prop.
Hypothesis P_handle : forall e st, P st -> P (fst (handle e st)).

Lemma run_invariant (events : list Event) (st : State) :
  P st -> P (fst (run events st)).
Proof.
  revert st. induction events as [| e rest IH]; intros st HP.
  - exact HP.
  - cbn [run].
    pose proof (P_handle e st HP) as HP'.
    destruct (handle e st) as [st' published].
    specialize (IH st' HP').
    destruct (run rest st') as [final later].
    exact IH.
Qed.

Lemma reachable_invariant (st : State) :
  P useGame -> reachable st -> P st.
Proof.
  intros HP [events ->]. now apply run_invariant.
Qed.

End Reachability.

Lemma handle_trail_bounded (e : Event) (st : State) :
  (List.length (trailRef st) <= TRAIL_LIMIT)%nat ->
  (List.length (trailRef (fst (handle e st))) <= TRAIL_LIMIT)%nat.
Proof.
  intros Hlen. destruct e as [key | key | rnd width height | f]; cbn [handle fst].
  - unfold handleKeyDown. destruct (KEY_DIRECTIONS _); exact Hlen.
  - unfold handleKeyUp. destruct (KEY_DIRECTIONS _); exact Hlen.
  - cbn. unfold TRAIL_LIMIT. lia.
  - rewrite step_trailRef, pushTrail_length by exact Hlen. lia.
Qed.

Lemma reachable_trail_bounded (st : State) :
  reachable st -> (List.length (trailRef st) <= TRAIL_LIMIT)%nat.
Proof.
  apply (reachable_invariant
           (fun s => (List.length (trailRef s) <= TRAIL_LIMIT)%nat)).
  - apply handle_trail_bounded.
  - cbn. lia.
Qed.

(** A handler either ignores the key (undefined lookup) or updates the
    pressed keys under the lower-cased name. *)
Lemma handleKeyDown_cases (key : string) (st : State) :
  (KEY_DIRECTIONS (toLowerCase key) = undefined /\ handleKeyDown key st = st)
  \/ (KEY_DIRECTIONS (toLowerCase key) <> undefined
      /\ handleKeyDown key st =
         withPressedKeys (setAdd (toLowerCase key) (pressedKeysRef st)) st).
Proof.
  unfold handleKeyDown.
  destruct (KEY_DIRECTIONS (toLowerCase key));
    [right | right | left]; split; try reflexivity; discriminate.
Qed.

Lemma handleKeyUp_cases (key : string) (st : State) :
  (KEY_DIRECTIONS (toLowerCase key) = undefined /\ handleKeyUp key st = st)
  \/ (KEY_DIRECTIONS (toLowerCase key) <> undefined
      /\ handleKeyUp key st =
         withPressedKeys (setDelete (toLowerCase key) (pressedKeysRef st)) st).
Proof.
  unfold handleKeyUp.
  destruct (KEY_DIRECTIONS (toLowerCase key));
    [right | right | left]; split; try reflexivity; discriminate.
Qed.

(** X1.  In every state the event loop can be in, the pressed keys form a
    set (no key twice) of keys whose lookup in the table object is truthy:
    the eight direction keys, or a name the table inherits from
    [Object.prototype]. *)
Lemma reachable_pressedKeys (st : State) :
  reachable st ->
  NoDup (pressedKeysRef st)
  /\ Forall (fun key => KEY_DIRECTIONS key <> undefined) (pressedKeysRef st).
Proof.
  apply (reachable_invariant
           (fun s => NoDup (pressedKeysRef s)
                     /\ Forall (fun key => KEY_DIRECTIONS key <> undefined)
                          (pressedKeysRef s))).
  - intros e s [Hnodup Hknown].
    destruct e as [key | key | rnd width height | f]; cbn [handle fst].
    + destruct (handleKeyDown_cases key s) as [[_ ->] | [Hdir ->]];
        [now split |].
      cbn [withPressedKeys pressedKeysRef]. unfold setAdd.
      destruct (in_dec string_dec (toLowerCase key) (pressedKeysRef s))
        as [Hin | Hout]; [now split |].
      split.
      * apply NoDup_app; repeat split; try assumption.
        -- apply NoDup_cons; [intros [] | constructor].
        -- intros k Hk [<- | []]. contradiction.
      * apply Forall_app. split; [assumption |].
        constructor; [exact Hdir | constructor].
    + destruct (handleKeyUp_cases key s) as [[_ ->] | [_ ->]];
        [now split |].
      cbn [withPressedKeys pressedKeysRef]. unfold setDelete.
      split.
      * now apply NoDup_filter.
      * apply Forall_forall. intros k Hk.
        apply filter_In in Hk as [Hk _].
        revert k Hk. now apply Forall_forall.
    + now split.
    + rewrite step_pressedKeysRef. now split.
  - split; constructor.
Qed.

(** C5.  From any state the event loop can be in, a run of frames appends
    the leader's position once per frame at the end of the trail and keeps
    the most recent 180 samples in oldest-first order: the trail is the last
    180 entries of the old trail followed by the leader's positions of the
    run, its length is the smaller of 180 and the old length plus the number
    of frames, its last entry is the leader's current position, and from 180
    frames on (so after 200 or more) it is exactly the leader's 180 most
    recent positions. *)
Theorem trail_keeps_most_recent_positions
    (st : State) (frames : list Frame) :
  reachable st ->
  let st' := runFrames frames st in
  let path := leaderPath frames st in
  List.length path = List.length frames
  /\ trailRef st' = lastn TRAIL_LIMIT (trailRef st ++ path)
  /\ List.length (trailRef st') =
     Nat.min 180 (List.length (trailRef st) + List.length frames)
  /\ (List.length (trailRef st') <= 180)%nat
  /\ (frames <> [] -> forall d, last (trailRef st') d = aksRef st')
  /\ ((180 <= List.length frames)%nat ->
      trailRef st' = lastn 180 path
      /\ List.length (trailRef st') = 180%nat).
Proof.
  intros Hreach. cbv zeta.
  pose proof (reachable_trail_bounded st Hreach) as Hlen.
  pose proof (leaderPath_length frames st) as Hpath.
  pose proof (runFrames_trail frames st Hlen) as Htrail.
  assert (Hsize : List.length (trailRef (runFrames frames st)) =
                  Nat.min 180 (List.length (trailRef st) + List.length frames)).
  { rewrite Htrail, lastn_length, length_app, Hpath. reflexivity. }
  repeat split.
  - exact Hpath.
  - exact Htrail.
  - exact Hsize.
  - rewrite Hsize. lia.
  - intros Hframes d.
    destruct (exists_last Hframes) as [before [f ->]].
    unfold runFrames. rewrite fold_left_app. cbn [fold_left].
    rewrite step_trailRef, step_aksRef. apply pushTrail_last.
  - rewrite Htrail. apply lastn_app_short.
    rewrite Hpath. assumption.
  - rewrite Hsize. lia.
Qed.

Lemma started_reachable (draw width height : R) :
  reachable (started draw width height).
Proof. exists [Resize (fun _ => draw) width height]. reflexivity. Qed.

Lemma trail_keeps_most_recent_positions_witness :
  let st := started 0.25 800 600 in
  let frames := repeat (frameAt 0.25 800 600 0) 200 in
  trailRef (runFrames frames st) = lastn 180 (leaderPath frames st)
  /\ List.length (trailRef (runFrames frames st)) = 180%nat.
Proof.
  cbv zeta.
  apply (trail_keeps_most_recent_positions
           (started 0.25 800 600) (repeat (frameAt 0.25 800 600 0) 200)).
  - apply started_reachable.
  - rewrite repeat_length. lia.
Defined.

(** ** The follower's target *)

Lemma targetIndex_in_range (trail : list Vec2) :
  (1 <= List.length trail)%nat ->
  (Z.to_nat (targetIndex trail) < List.length trail)%nat.
Proof. unfold targetIndex, FOLLOW_DELAY. lia. Qed.

Lemma followTarget_sample (trail : list Vec2) (aks : Vec2) :
  (1 <= List.length trail)%nat ->
  nth_error trail (Z.to_nat (targetIndex trail)) =
  Some (followTarget trail aks).
Proof.
  intros Hlen. unfold followTarget.
  destruct (nth_error trail (Z.to_nat (targetIndex trail))) as [point |] eqn:E.
  - reflexivity.
  - apply nth_error_None in E.
    pose proof (targetIndex_in_range trail Hlen). lia.
Qed.

(** C1, as the code has it.  On every frame the follower's target index is
    max(0, trailLength - 1 - 34), the trail length being taken after the
    frame's append and eviction; the target is the trail sample at that
    index (the fallback to the leader's position is never taken), and the
    follower moves towards it.  With at most 35 samples in the trail the
    index is 0 and the target is the oldest sample of the trail; with 35 or
    more it is the sample 34 places before the newest. *)
Theorem follower_targets_lagged_sample (f : Frame) (st : State) :
  let st' := fst (step f st) in
  let trail := trailRef st' in
  let target := followTarget trail (aksRef st') in
  targetIndex trail = Z.max 0 (Z.of_nat (List.length trail) - 1 - 34)
  /\ nth_error trail (Z.to_nat (targetIndex trail)) = Some target
  /\ oliveRef st' = moveOlive f st target
  /\ ((List.length trail <= 35)%nat ->
      targetIndex trail = 0%Z /\ hd_error trail = Some target)
  /\ ((35 <= List.length trail)%nat ->
      targetIndex trail = (Z.of_nat (List.length trail) - 35)%Z
      /\ nth_error trail (List.length trail - 35) = Some target).
Proof.
  cbv zeta.
  assert (Hlen : (1 <= List.length (trailRef (fst (step f st))))%nat).
  { rewrite step_trailRef. apply pushTrail_nonempty. }
  pose proof (followTarget_sample _ (aksRef (fst (step f st))) Hlen) as Hnth.
  split; [reflexivity |].
  split; [exact Hnth |].
  split; [rewrite step_oliveRef, step_trailRef, step_aksRef; reflexivity |].
  split.
  - intros Hshort.
    assert (Hidx : targetIndex (trailRef (fst (step f st))) = 0%Z)
      by (unfold targetIndex, FOLLOW_DELAY; lia).
    split; [exact Hidx |].
    rewrite Hidx in Hnth. cbn [Z.to_nat] in Hnth.
    destruct (trailRef (fst (step f st))); exact Hnth.
  - intros Hlong.
    assert (Hidx : targetIndex (trailRef (fst (step f st))) =
                   (Z.of_nat (List.length (trailRef (fst (step f st)))) - 35)%Z)
      by (unfold targetIndex, FOLLOW_DELAY; lia).
    split; [exact Hidx |].
    rewrite Hidx in Hnth.
    replace (Z.to_nat (Z.of_nat (List.length (trailRef (fst (step f st)))) - 35))
      with (List.length (trailRef (fst (step f st))) - 35)%nat in Hnth by lia.
    exact Hnth.
Qed.

Lemma started_idle_step (draw width height t : R) :
  let st' := fst (step (frameAt draw width height t)
                       (started draw width height)) in
  aksRef st' = {| x := width * 0.65; y := height * 0.55 |}
  /\ trailRef st' = [ {| x := width * 0.5; y := height * 0.6 |};
                      {| x := width * 0.65; y := height * 0.55 |} ].
Proof.
  cbv zeta. rewrite step_trailRef, step_aksRef.
  unfold moveAks. rewrite hasInput_no_keys by reflexivity.
  split; reflexivity.
Qed.

Lemma follower_targets_lagged_sample_witness :
  let st' := fst (step (frameAt 0.25 800 500 0) (started 0.25 800 500)) in
  targetIndex (trailRef st') = 0%Z
  /\ hd_error (trailRef st') =
     Some (followTarget (trailRef st') (aksRef st')).
Proof.
  cbv zeta.
  apply (follower_targets_lagged_sample
           (frameAt 0.25 800 500 0) (started 0.25 800 500)).
  destruct (started_idle_step 0.25 800 500 0) as [_ ->].
  cbn. lia.
Defined.

(** C1 as stated fails: on the first frame after a start on an 800 x 500
    play area the trail holds 2 samples, yet the follower's target is its
    own starting point (400, 300), not the leader's position (520, 275). *)
Lemma follower_target_is_not_leader_position :
  let st' := fst (step (frameAt 0.25 800 500 0) (started 0.25 800 500)) in
  (List.length (trailRef st') < 35)%nat
  /\ followTarget (trailRef st') (aksRef st') = {| x := 400; y := 300 |}
  /\ aksRef st' = {| x := 520; y := 275 |}
  /\ followTarget (trailRef st') (aksRef st') <> aksRef st'.
Proof.
  cbv zeta.
  destruct (started_idle_step 0.25 800 500 0) as [-> ->].
  assert (Htarget : followTarget
                      [ {| x := 800 * 0.5; y := 500 * 0.6 |};
                        {| x := 800 * 0.65; y := 500 * 0.55 |} ]
                      {| x := 800 * 0.65; y := 500 * 0.55 |} =
                    {| x := 400; y := 300 |}).
  { cbn. apply vec2_eq; cbn; lra. }
  split; [cbn; lia |].
  split; [exact Htarget |].
  split; [apply vec2_eq; cbn; lra |].
  rewrite Htarget. intros Heq.
  apply (f_equal x) in Heq. cbn in Heq. lra.
Qed.

(** ** Collectibles *)

Section Collectibles.

Variables (aks : Vec2) (dt : R).

Lemma visitCollectible_taken (c : Collectible) (count : nat) :
  taken c = true -> visitCollectible aks dt c count = (c, count).
Proof. intros Ht. unfold visitCollectible. now rewrite Ht. Qed.



Lemma picked_true (c : Collectible) :
  picked aks c = true <-> taken c = false /\ distanceToAks c aks < 30.
Proof.
  unfold picked. rewrite andb_true_iff, negb_true_iff.
  destruct (Rlt_dec (distanceToAks c aks) 30); split; intros [H1 H2];
    split; try assumption; try reflexivity; try discriminate; contradiction.
Qed.

Lemma visitCollectible_count (c : Collectible) (count : nat) :
  snd (visitCollectible aks dt c count) =
  ((if picked aks c then 1 else 0) + count)%nat.
Proof.
  unfold visitCollectible, picked.
  destruct (taken c); cbn [negb andb snd]; [reflexivity |].
  destruct (Rlt_dec (distanceToAks c aks) 30); reflexivity.
Qed.

Lemma visitCollectible_item (c : Collectible) (count : nat) :
  fst (visitCollectible aks dt c count) = fst (visitCollectible aks dt c 0).
Proof.
  unfold visitCollectible. destruct (taken c); reflexivity.
Qed.

Lemma visitCollectible_taken_after (c : Collectible) (count : nat) :
  taken (fst (visitCollectible aks dt c count)) = taken c || picked aks c.
Proof.
  unfold visitCollectible, picked.
  destruct (taken c) eqn:Ht; cbn [negb andb orb fst taken]; [exact Ht |].
  destruct (Rlt_dec (distanceToAks c aks) 30); reflexivity.
Qed.

Lemma visitCollectibles_items (batch : list Collectible) (count : nat) :
  fst (visitCollectibles aks dt batch count) =
  map (fun c => fst (visitCollectible aks dt c 0)) batch.
Proof.
  revert count. induction batch as [| c rest IH]; intros count.
  - reflexivity.
  - cbn [visitCollectibles map].
    rewrite <- (visitCollectible_item c count).
    destruct (visitCollectible aks dt c count) as [c' count'].
    specialize (IH count').
    destruct (visitCollectibles aks dt rest count') as [rest' count''].
    cbn [fst] in *. now rewrite IH.
Qed.

Lemma visitCollectibles_count (batch : list Collectible) (count : nat) :
  snd (visitCollectibles aks dt batch count) =
  (count + pickups aks batch)%nat.
Proof.
  revert count. induction batch as [| c rest IH]; intros count.
  - cbn. lia.
  - cbn [visitCollectibles].
    pose proof (visitCollectible_count c count) as Hc.
    destruct (visitCollectible aks dt c count) as [c' count'].
    specialize (IH count').
    destruct (visitCollectibles aks dt rest count') as [rest' count''].
    cbn [snd] in *. rewrite IH, Hc.
    unfold pickups. cbn [filter].
    destruct (picked aks c); cbn [List.length]; lia.
Qed.

Lemma visitCollectibles_all_taken (batch : list Collectible) (count : nat) :
  forallb taken (fst (visitCollectibles aks dt batch count)) = true <->
  Forall (fun c => taken c = true \/ distanceToAks c aks < 30) batch.
Proof.
  rewrite visitCollectibles_items, forallb_forall, Forall_forall.
  split.
  - intros Hall c Hin.
    specialize (Hall _ (in_map _ _ _ Hin)). cbn beta in Hall.
    rewrite visitCollectible_taken_after in Hall.
    apply orb_true_iff in Hall as [Ht | Hp]; [now left |].
    apply picked_true in Hp. now right.
  - intros Hall c' Hin'.
    apply in_map_iff in Hin' as [c [<- Hin]].
    rewrite visitCollectible_taken_after.
    destruct (taken c) eqn:Ht; [reflexivity |].
    destruct (Hall c Hin) as [Htaken | Hnear]; [congruence |].
    cbn [orb]. apply picked_true. now split.
Qed.

End Collectibles.



(** *** Fresh batches *)

Lemma generateCollectibles_length (rnd : nat -> R) (width height : R) :
  List.length (generateCollectibles rnd width height) = 6%nat.
Proof. reflexivity. Qed.

Lemma generateCollectibles_In
    (rnd : nat -> R) (width height : R) (c : Collectible) :
  In c (generateCollectibles rnd width height) ->
  taken c = false
  /\ exists i j : nat,
      position c =
      {| x := EDGE_PADDING + 30 + rnd i * (width - (EDGE_PADDING + 30) * 2);
         y := EDGE_PADDING + 30 + rnd j * (height - (EDGE_PADDING + 30) * 2) |}.
Proof.
  unfold generateCollectibles. intros Hin.
  apply in_map_iff in Hin as [index [<- _]].
  split; [reflexivity |].
  exists (3 * index)%nat, (3 * index + 1)%nat. reflexivity.
Qed.

Lemma generateCollectibles_fresh (rnd : nat -> R) (width height : R) :
  Forall (fun c => taken c = false) (generateCollectibles rnd width height).
Proof.
  apply Forall_forall. intros c Hin.
  now apply generateCollectibles_In in Hin.
Qed.

Lemma generateCollectibles_inset (rnd : nat -> R) (width height : R) :
  unitDraws rnd ->
  (EDGE_PADDING + 30) * 2 <= width ->
  (EDGE_PADDING + 30) * 2 <= height ->
  Forall (fun c => inInset width height (position c))
    (generateCollectibles rnd width height).
Proof.
  intros Hdraws Hw Hh. apply Forall_forall. intros c Hin.
  apply generateCollectibles_In in Hin as [_ [i [j ->]]].
  pose proof (Hdraws i) as Hi. pose proof (Hdraws j) as Hj.
  unfold inInset, EDGE_PADDING in *. cbn [x y]. nra.
Qed.

(** On a play area narrower than twice the inset the spawn interval is
    turned around and no draw lands in the inset rectangle. *)
Lemma generateCollectibles_outside (rnd : nat -> R) (width height : R) :
  width < (EDGE_PADDING + 30) * 2 ->
  Forall (fun c => ~ inInset width height (position c))
    (generateCollectibles rnd width height).
Proof.
  intros Hw. apply Forall_forall. intros c _.
  unfold inInset, EDGE_PADDING in *. lra.
Qed.

Lemma cleared_batch_is_replaced_batch (f : Frame) (st : State) :
  forallb taken
    (fst (visitCollectibles (aksRef (fst (step f st))) (delta f st)
            (collectiblesRef st) (collectedRef st))) = true ->
  collectiblesRef (fst (step f st)) =
    generateCollectibles (random f) (clientWidth f) (clientHeight f)
  /\ List.length (collectiblesRef (fst (step f st))) = 6%nat.
Proof.
  rewrite step_aksRef. intros Hall.
  assert (Hbatch : collectiblesRef (fst (step f st)) =
                   generateCollectibles (random f)
                     (clientWidth f) (clientHeight f)).
  { rewrite step_collectiblesRef. unfold refreshCollectibles.
    now rewrite Hall. }
  split; [exact Hbatch |].
  rewrite Hbatch. apply generateCollectibles_length.
Qed.

(** C7, as the code has it.  If at the end of a frame's collectible
    processing every collectible of the batch is taken, the frame installs
    a new batch: 6 collectibles, none taken, drawn afresh, and, when the play
    area is at least 220 wide and 220 high, all positioned inside the inset
    rectangle.  The collected counter is not touched by the regeneration: it
    is its prior value plus the pickups of the frame. *)
Theorem cleared_batch_is_replaced (f : Frame) (st : State) :
  let st' := fst (step f st) in
  let visited :=
    fst (visitCollectibles (aksRef st') (delta f st)
           (collectiblesRef st) (collectedRef st)) in
  forallb taken visited = true ->
  unitDraws (random f) ->
  collectiblesRef st' =
    generateCollectibles (random f) (clientWidth f) (clientHeight f)
  /\ List.length (collectiblesRef st') = 6%nat
  /\ Forall (fun c => taken c = false) (collectiblesRef st')
  /\ (220 <= clientWidth f -> 220 <= clientHeight f ->
      Forall (fun c => inInset (clientWidth f) (clientHeight f) (position c))
        (collectiblesRef st'))
  /\ collectedRef st' =
     (collectedRef st + pickups (aksRef st') (collectiblesRef st))%nat
  /\ (collectedRef st <= collectedRef st')%nat.
Proof.
  cbv zeta. rewrite step_aksRef. intros Hall Hdraws.
  assert (Hbatch : collectiblesRef (fst (step f st)) =
                   generateCollectibles (random f)
                     (clientWidth f) (clientHeight f)).
  { rewrite step_collectiblesRef. unfold refreshCollectibles.
    now rewrite Hall. }
  assert (Hcount : collectedRef (fst (step f st)) =
                   (collectedRef st
                    + pickups (moveAks f st) (collectiblesRef st))%nat).
  { rewrite step_collectedRef. apply visitCollectibles_count. }
  rewrite Hbatch.
  split; [reflexivity |].
  split; [apply generateCollectibles_length |].
  split; [apply generateCollectibles_fresh |].
  split.
  - intros Hw Hh.
    apply generateCollectibles_inset; unfold EDGE_PADDING; try assumption; lra.
  - split; [exact Hcount | lia].
Qed.

(** A session whose every collectible spawns within reach of the leader's
    starting point: the first frame takes the whole batch. *)
Lemma started_first_frame_clears (draw width height t : R) :
  let st := started draw width height in
  let f := frameAt draw width height t in
  let px := EDGE_PADDING + 30 + draw * (width - (EDGE_PADDING + 30) * 2) in
  let py := EDGE_PADDING + 30 + draw * (height - (EDGE_PADDING + 30) * 2) in
  (px - width * 0.65) * (px - width * 0.65)
  + (py - height * 0.55) * (py - height * 0.55) < 30 * 30 ->
  forallb taken
    (fst (visitCollectibles (aksRef (fst (step f st))) (delta f st)
            (collectiblesRef st) (collectedRef st))) = true.
Proof.
  cbv zeta. intros Hreach.
  destruct (started_idle_step draw width height t) as [-> _].
  apply visitCollectibles_all_taken, Forall_forall.
  intros c Hin. right.
  apply generateCollectibles_In in Hin as [_ [i [j Hpos]]].
  unfold distanceToAks. rewrite Hpos.
  apply length_lt_iff; [lra |]. cbn [x y]. exact Hreach.
Qed.

Lemma unitDraws_const (draw : R) : 0 <= draw < 1 -> unitDraws (fun _ => draw).
Proof. intros Hdraw k. exact Hdraw. Qed.

Lemma cleared_batch_is_replaced_witness :
  let f := frameAt 0.9 240 240 0 in
  let st' := fst (step f (started 0.9 240 240)) in
  List.length (collectiblesRef st') = 6%nat
  /\ Forall (fun c => taken c = false) (collectiblesRef st')
  /\ Forall (fun c => inInset 240 240 (position c)) (collectiblesRef st').
Proof.
  cbv zeta.
  destruct (cleared_batch_is_replaced
              (frameAt 0.9 240 240 0) (started 0.9 240 240))
    as (_ & Hsize & Hfresh & Hinset & _).
  - apply (started_first_frame_clears 0.9 240 240 0).
    unfold EDGE_PADDING. lra.
  - apply (unitDraws_const 0.9). lra.
  - split; [exact Hsize |].
    split; [exact Hfresh |].
    apply Hinset; cbn; lra.
Defined.

(** C7 as stated fails on a small play area.  A session on a 200 x 200
    canvas with every draw 0.25 spawns its stars at (105, 105), within
    reach of the leader's starting point (130, 110); the first frame takes
    all six and installs a fresh batch, again at (105, 105), while the inset
    rectangle [110, 90] x [110, 90] of that canvas holds no point at all. *)
Lemma fresh_batch_outside_inset :
  let f := frameAt 0.25 200 200 0 in
  let st := started 0.25 200 200 in
  let st' := fst (step f st) in
  forallb taken
    (fst (visitCollectibles (aksRef st') (delta f st)
            (collectiblesRef st) (collectedRef st))) = true
  /\ unitDraws (random f)
  /\ List.length (collectiblesRef st') = 6%nat
  /\ Forall (fun c => position c = {| x := 105; y := 105 |}
                      /\ ~ inInset 200 200 (position c))
       (collectiblesRef st')
  /\ ~ Forall (fun c => inInset 200 200 (position c)) (collectiblesRef st').
Proof.
  cbv zeta.
  assert (Hall : forallb taken
            (fst (visitCollectibles
                    (aksRef (fst (step (frameAt 0.25 200 200 0)
                                       (started 0.25 200 200))))
                    (delta (frameAt 0.25 200 200 0) (started 0.25 200 200))
                    (collectiblesRef (started 0.25 200 200))
                    (collectedRef (started 0.25 200 200)))) = true).
  { apply (started_first_frame_clears 0.25 200 200 0).
    unfold EDGE_PADDING. lra. }
  assert (Hdraws : unitDraws (random (frameAt 0.25 200 200 0))).
  { apply (unitDraws_const 0.25). lra. }
  destruct (cleared_batch_is_replaced_batch _ _ Hall) as [Hbatch Hsize].
  assert (Hout : Forall (fun c => position c = {| x := 105; y := 105 |}
                                  /\ ~ inInset 200 200 (position c))
                   (collectiblesRef (fst (step (frameAt 0.25 200 200 0)
                                               (started 0.25 200 200))))).
  { rewrite Hbatch. apply Forall_forall. intros c Hin.
    split.
    - apply generateCollectibles_In in Hin as [_ [i [j ->]]].
      apply vec2_eq; cbn; unfold EDGE_PADDING; lra.
    - unfold inInset, EDGE_PADDING. lra. }
  split; [exact Hall |].
  split; [exact Hdraws |].
  split; [exact Hsize |].
  split; [exact Hout |].
  intros Hin.
  destruct (collectiblesRef (fst (step (frameAt 0.25 200 200 0)
                                       (started 0.25 200 200))))
    as [| c rest]; [discriminate Hsize |].
  inversion Hin as [| ? ? Hc _]. inversion Hout as [| ? ? [_ Hc'] _].
  contradiction.
Qed.

(** ** Resize *)

(** C8, as the code has it.  A resize notification, whatever the state it
    arrives in, resets the session: elapsed time 0, collected count 0, a
    trail of a single sample (the follower's new position), the leader at
    (0.65 width, 0.55 height) and the follower at (0.5 width, 0.6 height) of
    the new size, the last-frame timestamp cleared (so the next frame has
    delta 0), and a fresh batch of 6 not-taken collectibles which, when the
    new size is at least 220 x 220, all lie inside the inset rectangle of the
    new bounds.  Nothing is published. *)
Theorem resize_resets_session
    (rnd : nat -> R) (width height : R) (st : State) :
  let st' := fst (handle (Resize rnd width height) st) in
  timeRef st' = 0
  /\ collectedRef st' = 0%nat
  /\ trailRef st' = [oliveRef st']
  /\ aksRef st' = {| x := width * 0.65; y := height * 0.55 |}
  /\ oliveRef st' = {| x := width * 0.5; y := height * 0.6 |}
  /\ lastTimestamp st' = None
  /\ (forall f, delta f st' = 0)
  /\ collectiblesRef st' = generateCollectibles rnd width height
  /\ List.length (collectiblesRef st') = 6%nat
  /\ Forall (fun c => taken c = false) (collectiblesRef st')
  /\ (unitDraws rnd -> 220 <= width -> 220 <= height ->
      Forall (fun c => inInset width height (position c))
        (collectiblesRef st'))
  /\ snd (handle (Resize rnd width height) st) = None.
Proof.
  cbv zeta. cbn [handle fst snd initializePositions
                 timeRef collectedRef trailRef aksRef oliveRef lastTimestamp
                 collectiblesRef].
  repeat (split; [reflexivity |]).
  split.
  { intros f. unfold delta, initializePositions. cbn [lastTimestamp]. field. }
  split; [reflexivity |].
  split; [apply generateCollectibles_length |].
  split; [apply generateCollectibles_fresh |].
  split; [| reflexivity].
  intros Hdraws Hw Hh.
  apply generateCollectibles_inset; unfold EDGE_PADDING; try assumption; lra.
Qed.

Lemma resize_resets_session_witness :
  Forall (fun c => inInset 800 600 (position c))
    (collectiblesRef
       (fst (handle (Resize (fun _ => 0.25) 800 600)
               (fst (step (frameAt 0.9 240 240 16) (started 0.9 240 240)))))).
Proof.
  apply (resize_resets_session (fun _ => 0.25) 800 600
           (fst (step (frameAt 0.9 240 240 16) (started 0.9 240 240)))).
  - apply (unitDraws_const 0.25). lra.
  - lra.
  - lra.
Defined.

(** C8 as stated fails for a resize to a small play area: on a 200 x 200
    canvas with every draw 0.25 the fresh batch sits at (105, 105), and the
    inset rectangle [110, 90] x [110, 90] of the new bounds is empty. *)
Lemma resize_batch_outside_inset :
  let st' := fst (handle (Resize (fun _ => 0.25) 200 200) useGame) in
  unitDraws (fun _ => 0.25)
  /\ List.length (collectiblesRef st') = 6%nat
  /\ Forall (fun c => position c = {| x := 105; y := 105 |}
                      /\ ~ inInset 200 200 (position c))
       (collectiblesRef st')
  /\ ~ Forall (fun c => inInset 200 200 (position c)) (collectiblesRef st').
Proof.
  cbv zeta. cbn [handle fst initializePositions collectiblesRef].
  assert (Hout : Forall (fun c => position c = {| x := 105; y := 105 |}
                                  /\ ~ inInset 200 200 (position c))
                   (generateCollectibles (fun _ => 0.25) 200 200)).
  { apply Forall_forall. intros c Hin.
    split.
    - apply generateCollectibles_In in Hin as [_ [i [j ->]]].
      apply vec2_eq; cbn; unfold EDGE_PADDING; lra.
    - unfold inInset, EDGE_PADDING. lra. }
  split; [apply (unitDraws_const 0.25); lra |].
  split; [reflexivity |].
  split; [exact Hout |].
  intros Hin.
  inversion Hin as [| ? ? Hc _]. inversion Hout as [| ? ? [_ Hc'] _].
  contradiction.
Qed.

(** ** The leader *)

Lemma clamp_bounds (value lo hi : R) :
  lo <= hi -> lo <= clamp value lo hi <= hi.
Proof.
  intros Hle. unfold clamp, Rmin, Rmax.
  destruct (Rle_dec value lo); destruct (Rle_dec _ hi); lra.
Qed.

Lemma clampToWalkway_inside (p : Vec2) (width height : R) :
  EDGE_PADDING <= width - EDGE_PADDING ->
  EDGE_PADDING <= height - EDGE_PADDING ->
  inWalkway width height (clampToWalkway p width height).
Proof.
  intros Hw Hh. unfold inWalkway, clampToWalkway. cbn [x y].
  split; now apply clamp_bounds.
Qed.

Lemma delta_first_frame (f : Frame) (st : State) :
  lastTimestamp st = None -> delta f st = 0.
Proof. intros Hfirst. unfold delta. rewrite Hfirst. field. Qed.

Lemma moveAks_idle (f : Frame) (st : State) :
  normalizedInput st = zero -> moveAks f st = aksRef st.
Proof.
  intros Hidle. apply hasInput_false in Hidle.
  unfold moveAks. now rewrite Hidle.
Qed.

Lemma moveAks_moving (f : Frame) (st : State) :
  normalizedInput st <> zero ->
  moveAks f st =
  clampToWalkway
    {| x := x (aksRef st) + x (normalizedInput st) * SPEED * delta f st;
       y := y (aksRef st) + y (normalizedInput st) * SPEED * delta f st |}
    (clientWidth f) (clientHeight f).
Proof.
  intros Hmove. unfold moveAks.
  destruct (hasInput st) eqn:Hin; [reflexivity |].
  apply hasInput_false in Hin. contradiction.
Qed.

Lemma runFrames_idle (frames : list Frame) (st : State) :
  normalizedInput st = zero ->
  aksRef (runFrames frames st) = aksRef st
  /\ aksDirectionRef (runFrames frames st) = aksDirectionRef st.
Proof.
  revert st. induction frames as [| f rest IH]; intros st Hidle.
  - split; reflexivity.
  - rewrite runFrames_cons.
    assert (Hidle' : normalizedInput (fst (step f st)) = zero).
    { unfold normalizedInput in *. now rewrite step_pressedKeysRef. }
    destruct (IH _ Hidle') as [-> ->].
    rewrite step_aksRef, step_aksDirectionRef.
    split; [now apply moveAks_idle |].
    unfold moveAksDirection.
    apply hasInput_false in Hidle. now rewrite Hidle.
Qed.

(** C3, as the code has it.  On a play area at least 160 wide and 160 high,
    a frame whose normalized input is nonzero moves the leader by
    normalizedInput * 280 * delta and clamps each axis, which puts the
    leader inside [80, width - 80] x [80, height - 80] whatever delta is; a
    frame with zero input leaves the position alone.  Hence the leader is
    inside the walkway after the update whenever the input is nonzero or the
    leader was inside before. *)
Theorem leader_update_keeps_walkway (f : Frame) (st : State) :
  let width := clientWidth f in
  let height := clientHeight f in
  let n := normalizedInput st in
  let st' := fst (step f st) in
  EDGE_PADDING <= width - EDGE_PADDING ->
  EDGE_PADDING <= height - EDGE_PADDING ->
  (n <> zero ->
   aksRef st' =
     {| x := clamp (x (aksRef st) + x n * 280 * delta f st)
              80 (width - 80);
        y := clamp (y (aksRef st) + y n * 280 * delta f st)
              80 (height - 80) |}
   /\ inWalkway width height (aksRef st'))
  /\ (n = zero -> aksRef st' = aksRef st)
  /\ (n <> zero \/ inWalkway width height (aksRef st) ->
      inWalkway width height (aksRef st')).
Proof.
  cbv zeta. intros Hw Hh. rewrite step_aksRef.
  assert (Hmoving : normalizedInput st <> zero ->
                    inWalkway (clientWidth f) (clientHeight f) (moveAks f st)).
  { intros Hmove. rewrite moveAks_moving by exact Hmove.
    now apply clampToWalkway_inside. }
  split; [| split].
  - intros Hmove. split; [| now apply Hmoving].
    rewrite moveAks_moving by exact Hmove. reflexivity.
  - apply moveAks_idle.
  - intros [Hmove | Hinside]; [now apply Hmoving |].
    destruct (hasInput st) eqn:Hin.
    + apply Hmoving. intros Hidle. apply hasInput_false in Hidle. congruence.
    + apply hasInput_false in Hin. now rewrite moveAks_idle.
Qed.

Lemma arrowright_moves :
  normalizedInput (handleKeyDown "ArrowRight" (started 0.25 800 600)) <> zero.
Proof. apply normalizedInput_arrowright. reflexivity. Qed.

Lemma leader_update_keeps_walkway_witness :
  inWalkway 800 600
    (aksRef (fst (step (frameAt 0.25 800 600 16)
                       (handleKeyDown "ArrowRight" (started 0.25 800 600))))).
Proof.
  apply (leader_update_keeps_walkway
           (frameAt 0.25 800 600 16)
           (handleKeyDown "ArrowRight" (started 0.25 800 600))).
  - cbn. unfold EDGE_PADDING. lra.
  - cbn. unfold EDGE_PADDING. lra.
  - left. apply arrowright_moves.
Defined.

(** C3 as stated fails.  With no key held the clamp is skipped: a session
    started on a 200 x 200 canvas has its leader at (130, 110), and a frame
    with delta 0 leaves it there, right of the walkway [80, 120] x [80, 120].
    And on a canvas narrower than 160 the clamp interval is turned around:
    with the right arrow held on a 100 x 100 canvas the leader cannot lie
    in [80, 20] x [80, 20]. *)
Lemma leader_outside_walkway :
  (let f := frameAt 0.25 200 200 0 in
   let st := started 0.25 200 200 in
   0 <= delta f st
   /\ aksRef (fst (step f st)) = {| x := 130; y := 110 |}
   /\ ~ inWalkway 200 200 (aksRef (fst (step f st))))
  /\ (let f := frameAt 0.25 100 100 0 in
      let st := handleKeyDown "ArrowRight" (started 0.25 100 100) in
      0 <= delta f st
      /\ normalizedInput st <> zero
      /\ ~ inWalkway 100 100 (aksRef (fst (step f st)))).
Proof.
  cbv zeta. split.
  - destruct (started_idle_step 0.25 200 200 0) as [-> _].
    split; [| split].
    + rewrite delta_first_frame by reflexivity. lra.
    + apply vec2_eq; cbn; lra.
    + unfold inWalkway, EDGE_PADDING. cbn [x y]. lra.
  - split; [| split].
    + rewrite delta_first_frame by reflexivity. lra.
    + apply normalizedInput_arrowright. reflexivity.
    + unfold inWalkway, EDGE_PADDING. lra.
Qed.

(** C10.  A frame whose normalized input is the zero vector leaves the
    leader's position and facing exactly as they were: the clamp to the
    walkway is not applied.  The same holds over any run of frames, since
    frames do not change the pressed keys.  So after a start with no key
    held the leader stays at (0.65 width, 0.55 height) for as long as no
    key is pressed, and on a small play area (0.35 width < 80 or
    0.45 height < 80) that point is outside the walkway. *)
Theorem idle_leader_is_not_clamped :
  (forall f st,
      normalizedInput st = zero ->
      aksRef (fst (step f st)) = aksRef st
      /\ aksDirectionRef (fst (step f st)) = aksDirectionRef st)
  /\ (forall frames st,
         normalizedInput st = zero ->
         aksRef (runFrames frames st) = aksRef st
         /\ aksDirectionRef (runFrames frames st) = aksDirectionRef st)
  /\ (forall rnd width height st0 frames,
         pressedKeysRef st0 = [] ->
         width * 0.35 < 80 \/ height * 0.45 < 80 ->
         let st := runFrames frames (initializePositions rnd width height st0) in
         aksRef st = {| x := width * 0.65; y := height * 0.55 |}
         /\ ~ inWalkway width height (aksRef st)).
Proof.
  split; [| split].
  - intros f st Hidle. apply (runFrames_idle [f] st Hidle).
  - intros frames st. apply runFrames_idle.
  - intros rnd width height st0 frames Hkeys Hsmall. cbv zeta.
    assert (Hidle : normalizedInput
                      (initializePositions rnd width height st0) = zero).
    { apply hasInput_false, hasInput_no_keys. exact Hkeys. }
    destruct (runFrames_idle frames _ Hidle) as [-> _].
    cbn [initializePositions aksRef].
    split; [reflexivity |].
    unfold inWalkway, EDGE_PADDING. cbn [x y]. lra.
Qed.

Lemma idle_leader_is_not_clamped_witness :
  let st := runFrames (repeat (frameAt 0.25 200 200 16) 50)
              (initializePositions (fun _ => 0.25) 200 200 useGame) in
  aksRef st = {| x := 200 * 0.65; y := 200 * 0.55 |}
  /\ ~ inWalkway 200 200 (aksRef st).
Proof.
  apply idle_leader_is_not_clamped.
  - reflexivity.
  - left. lra.
Defined.

(** ** Metrics *)

Lemma updateUiState_throttled (nowMs last elapsed : R) (count : nat) (dist : R) :
  nowMs - last < UI_INTERVAL ->
  updateUiState nowMs last elapsed count dist = (last, None).
Proof.
  intros Hsoon. unfold updateUiState.
  destruct (Rlt_dec (nowMs - last) UI_INTERVAL); [reflexivity | contradiction].
Qed.

Lemma updateUiState_publishes (nowMs last elapsed : R) (count : nat) (dist : R) :
  UI_INTERVAL <= nowMs - last ->
  updateUiState nowMs last elapsed count dist =
  (nowMs,
   Some {| time := elapsed; collected := count; distance := dist;
           pace := if Nat.eqb count 0 then 0 else elapsed / INR count |}).
Proof.
  intros Hdue. unfold updateUiState.
  destruct (Rlt_dec (nowMs - last) UI_INTERVAL); [lra | reflexivity].
Qed.

(** What a frame publishes, if it publishes. *)
Lemma step_publication (f : Frame) (st : State) (ui : UiState) :
  snd (step f st) = Some ui ->
  let st' := fst (step f st) in
  UI_INTERVAL <= now f - lastUiUpdate st
  /\ lastUiUpdate st' = now f
  /\ time ui = timeRef st'
  /\ collected ui = collectedRef st'
  /\ pace ui = (if Nat.eqb (collectedRef st') 0 then 0
                else timeRef st' / INR (collectedRef st')).
Proof.
  intros Hpub. cbv zeta.
  pose proof (step_published f st) as Hstep. cbv zeta in Hstep.
  rewrite Hpub in Hstep.
  destruct (Rlt_dec (now f - lastUiUpdate st) UI_INTERVAL) as [Hsoon | Hdue].
  - rewrite updateUiState_throttled in Hstep by exact Hsoon. discriminate.
  - apply Rnot_lt_le in Hdue.
    rewrite updateUiState_publishes in Hstep by exact Hdue.
    injection Hstep as Hlast Hui. subst ui.
    cbn [time collected pace].
    repeat split; try reflexivity; assumption.
Qed.

Lemma step_silent (f : Frame) (st : State) :
  now f - lastUiUpdate st < UI_INTERVAL ->
  snd (step f st) = None
  /\ lastUiUpdate (fst (step f st)) = lastUiUpdate st
  /\ uiState (fst (step f st)) = uiState st.
Proof.
  intros Hsoon.
  pose proof (step_published f st) as Hstep. cbv zeta in Hstep.
  rewrite updateUiState_throttled in Hstep by exact Hsoon.
  injection Hstep as Hlast Hpub.
  split; [exact Hpub |]. split; [exact Hlast |].
  revert Hpub. unfold step.
  destruct (visitCollectibles _ _ _ _) as [visited count].
  destruct (updateUiState _ _ _ _ _) as [lastUpdate published].
  cbn [fst snd uiState]. now intros ->.
Qed.

Lemma step_loud (f : Frame) (st : State) :
  UI_INTERVAL <= now f - lastUiUpdate st ->
  exists ui, snd (step f st) = Some ui.
Proof.
  intros Hdue.
  pose proof (step_published f st) as Hstep. cbv zeta in Hstep.
  rewrite updateUiState_publishes in Hstep by exact Hdue.
  injection Hstep as _ Hpub. eauto.
Qed.

(** C2, as the code has it.  The pace a frame publishes is the number 0
    whenever the collected count is 0 (the metrics panel then shows dashes,
    as it does for any pace equal to 0), and the elapsed time divided by the
    collected count whenever that count is positive; an elapsed time of 10
    with 2 collected is published as pace 5. *)
Theorem published_pace :
  (forall f st ui,
      snd (step f st) = Some ui ->
      let st' := fst (step f st) in
      time ui = timeRef st'
      /\ collected ui = collectedRef st'
      /\ (collectedRef st' = 0%nat -> pace ui = 0 /\ avgPace ui = Dashes)
      /\ ((0 < collectedRef st')%nat ->
          pace ui = timeRef st' / INR (collectedRef st')))
  /\ (forall nowMs last dist,
         UI_INTERVAL <= nowMs - last ->
         exists ui,
           snd (updateUiState nowMs last 10 2 dist) = Some ui
           /\ pace ui = 5
           /\ avgPace ui = SecondsPerStar 5).
Proof.
  split.
  - intros f st ui Hpub. cbv zeta.
    destruct (step_publication f st ui Hpub) as (_ & _ & Htime & Hcount & Hpace).
    split; [exact Htime |]. split; [exact Hcount |].
    split.
    + intros Hnone. rewrite Hnone in Hpace. cbn [Nat.eqb] in Hpace.
      split; [exact Hpace |].
      unfold avgPace. destruct (Req_dec_T (pace ui) 0); [reflexivity | lra].
    + intros Hsome. rewrite Hpace.
      destruct (Nat.eqb_spec (collectedRef (fst (step f st))) 0);
        [lia | reflexivity].
  - intros nowMs last dist Hdue.
    rewrite updateUiState_publishes by exact Hdue. cbn [snd Nat.eqb].
    eexists. split; [reflexivity |]. cbn [pace].
    assert (Hfive : 10 / INR 2 = 5) by (cbn; lra).
    split; [exact Hfive |].
    unfold avgPace. cbn [pace]. rewrite Hfive.
    destruct (Req_dec_T 5 0); [lra | reflexivity].
Qed.

Lemma pickups_none (aks : Vec2) (batch : list Collectible) :
  (forall c, In c batch -> ~ distanceToAks c aks < 30) ->
  pickups aks batch = 0%nat.
Proof.
  intros Hfar. unfold pickups.
  induction batch as [| c rest IH]; [reflexivity |].
  cbn [filter].
  destruct (picked aks c) eqn:Hp.
  - apply picked_true in Hp as [_ Hnear].
    exfalso. apply (Hfar c); [now left | exact Hnear].
  - apply IH. intros c' Hin. apply Hfar. now right.
Qed.

(** A session started on an 800 x 500 canvas with every draw 0.25 has its
    stars at (255, 180), far from the leader at (520, 275): the frame at
    wall-clock time 120 collects nothing and publishes. *)
Lemma quiet_start_publishes :
  let f := frameAt 0.25 800 500 120 in
  let st' := fst (step f (started 0.25 800 500)) in
  collectedRef st' = 0%nat
  /\ snd (step f (started 0.25 800 500)) =
     Some {| time := timeRef st';
             collected := 0;
             distance := length {| x := x (aksRef st') - x (oliveRef st');
                                   y := y (aksRef st') - y (oliveRef st') |};
             pace := 0 |}.
Proof.
  cbv zeta.
  set (f := frameAt 0.25 800 500 120).
  set (st := started 0.25 800 500).
  assert (Hnone : collectedRef (fst (step f st)) = 0%nat).
  { rewrite step_collectedRef, visitCollectibles_count.
    rewrite pickups_none; [reflexivity |].
    intros c Hin Hnear.
    destruct (started_idle_step 0.25 800 500 120) as [Haks _].
    fold f st in Haks. rewrite step_aksRef in Haks. rewrite Haks in Hnear.
    apply generateCollectibles_In in Hin as [_ [i [j Hpos]]].
    unfold distanceToAks in Hnear. rewrite Hpos in Hnear.
    apply length_lt_iff in Hnear; [| lra].
    cbn [x y] in Hnear. unfold EDGE_PADDING in Hnear. lra. }
  split; [exact Hnone |].
  pose proof (step_published f st) as Hstep. cbv zeta in Hstep.
  rewrite updateUiState_publishes in Hstep
    by (unfold UI_INTERVAL; cbn; lra).
  rewrite Hnone in Hstep. cbn [Nat.eqb] in Hstep.
  injection Hstep as _ Hpub. exact Hpub.
Qed.

Lemma published_pace_witness :
  let f := frameAt 0.25 800 500 120 in
  let st' := fst (step f (started 0.25 800 500)) in
  let ui := {| time := timeRef st';
               collected := 0;
               distance := length {| x := x (aksRef st') - x (oliveRef st');
                                     y := y (aksRef st') - y (oliveRef st') |};
               pace := 0 |} in
  (pace ui = 0 /\ avgPace ui = Dashes)
  /\ exists ui',
      snd (updateUiState 120 0 10 2 0) = Some ui'
      /\ pace ui' = 5 /\ avgPace ui' = SecondsPerStar 5.
Proof.
  cbv zeta. destruct published_pace as [Hstep Hexample].
  split.
  - apply (Hstep (frameAt 0.25 800 500 120) (started 0.25 800 500)).
    + apply quiet_start_publishes.
    + apply quiet_start_publishes.
  - apply Hexample. unfold UI_INTERVAL. lra.
Defined.

(** C2 as stated fails: the value published as pace while nothing has been
    collected is the number zero.  The first publication of a session
    started on an 800 x 500 canvas, at wall-clock time 120, carries
    collected = 0 and pace = 0. *)
Lemma pace_sentinel_is_zero :
  let f := frameAt 0.25 800 500 120 in
  let st := started 0.25 800 500 in
  exists ui,
    snd (step f st) = Some ui
    /\ collectedRef (fst (step f st)) = 0%nat
    /\ collected ui = 0%nat
    /\ pace ui = 0.
Proof.
  cbv zeta. destruct quiet_start_publishes as [Hnone Hpub].
  eexists. split; [exact Hpub |].
  split; [exact Hnone |]. split; reflexivity.
Qed.

(** *** The publication throttle *)

Lemma handleKeyDown_lastUiUpdate (key : string) (st : State) :
  lastUiUpdate (handleKeyDown key st) = lastUiUpdate st.
Proof. unfold handleKeyDown. destruct (KEY_DIRECTIONS _); reflexivity. Qed.

Lemma handleKeyUp_lastUiUpdate (key : string) (st : State) :
  lastUiUpdate (handleKeyUp key st) = lastUiUpdate st.
Proof. unfold handleKeyUp. destruct (KEY_DIRECTIONS _); reflexivity. Qed.

Lemma run_cons (e : Event) (rest : list Event) (st : State) :
  snd (run (e :: rest) st) =
  match e, snd (handle e st) with
  | Tick f, Some ui => (now f, ui) :: snd (run rest (fst (handle e st)))
  | _, _ => snd (run rest (fst (handle e st)))
  end.
Proof.
  cbn [run]. destruct e as [key | key | rnd width height | f];
    (destruct (handle _ st) as [st' published];
     cbn [fst snd]; destruct (run rest st') as [final later];
     reflexivity).
Qed.

Lemma run_spaced (events : list Event) (st : State) :
  spaced (lastUiUpdate st) (map fst (snd (run events st))).
Proof.
  revert st. induction events as [| e rest IH]; intros st.
  - exact I.
  - rewrite run_cons.
    destruct e as [key | key | rnd width height | f]; cbn [handle fst snd].
    + rewrite <- (handleKeyDown_lastUiUpdate key st). apply IH.
    + rewrite <- (handleKeyUp_lastUiUpdate key st). apply IH.
    + apply (IH (initializePositions rnd width height st)).
    + destruct (Rlt_dec (now f - lastUiUpdate st) UI_INTERVAL) as [Hsoon | Hdue].
      * destruct (step_silent f st Hsoon) as (-> & <- & _). apply IH.
      * apply Rnot_lt_le in Hdue.
        destruct (step_loud f st Hdue) as [ui Hpub]. rewrite Hpub.
        destruct (step_publication f st ui Hpub) as (_ & Hlast & _).
        cbn [map fst spaced]. split; [exact Hdue |].
        rewrite <- Hlast. apply IH.
Qed.

Lemma run_times (events : list Event) (st : State) (t : R) :
  In t (map fst (snd (run events st))) ->
  exists f, In (Tick f) events /\ now f = t.
Proof.
  revert st. induction events as [| e rest IH]; intros st Hin.
  - destruct Hin.
  - rewrite run_cons in Hin.
    assert (Hrest : In t (map fst (snd (run rest (fst (handle e st))))) ->
                    exists f, In (Tick f) (e :: rest) /\ now f = t).
    { intros H. destruct (IH _ H) as [f [Hf Ht]].
      exists f. split; [now right | exact Ht]. }
    destruct e as [key | key | rnd width height | f]; try now apply Hrest.
    destruct (snd (handle (Tick f) st)); [| now apply Hrest].
    cbn [map fst] in Hin. destruct Hin as [<- | Hin]; [| now apply Hrest].
    exists f. split; [now left | reflexivity].
Qed.

Lemma spaced_span (times : list R) (last t bound : R) :
  spaced last (t :: times) ->
  (forall u, In u (t :: times) -> u <= bound) ->
  t + UI_INTERVAL * INR (List.length times) <= bound.
Proof.
  revert last t. induction times as [| t' later IH]; intros last t Hsp Hbound.
  - cbn. specialize (Hbound t (or_introl eq_refl)). lra.
  - destruct Hsp as [_ Hsp].
    pose proof Hsp as [Hgap _].
    specialize (IH t t' Hsp (fun u Hu => Hbound u (or_intror Hu))).
    change (List.length (t' :: later)) with (S (List.length later)).
    rewrite S_INR. unfold UI_INTERVAL in *. lra.
Qed.

Lemma run_cons_state (e : Event) (rest : list Event) (st : State) :
  fst (run (e :: rest) st) = fst (run rest (fst (handle e st))).
Proof.
  cbn [run]. destruct (handle e st) as [st' published].
  cbn [fst]. destruct (run rest st') as [final later].
  reflexivity.
Qed.

Lemma last_cons {A : Type} (a d : A) (l : list A) :
  last (a :: l) d = last l a.
Proof.
  revert a d. induction l as [| b l IH]; intros a d; [reflexivity |].
  change (last (a :: b :: l) d) with (last (b :: l) d).
  now rewrite (IH b d), (IH b a).
Qed.

(** [lastUiUpdate] is the time of the latest publication. *)
Lemma run_lastUiUpdate (events : list Event) (st : State) :
  lastUiUpdate (fst (run events st)) =
  last (map fst (snd (run events st))) (lastUiUpdate st).
Proof.
  revert st. induction events as [| e rest IH]; intros st.
  - reflexivity.
  - rewrite run_cons_state, run_cons, IH.
    destruct e as [key | key | rnd width height | f]; cbn [handle fst snd].
    + now rewrite handleKeyDown_lastUiUpdate.
    + now rewrite handleKeyUp_lastUiUpdate.
    + reflexivity.
    + destruct (Rlt_dec (now f - lastUiUpdate st) UI_INTERVAL) as [Hsoon | Hdue].
      * destruct (step_silent f st Hsoon) as (-> & -> & _). reflexivity.
      * apply Rnot_lt_le in Hdue.
        destruct (step_loud f st Hdue) as [ui Hpub]. rewrite Hpub.
        destruct (step_publication f st ui Hpub) as (_ & -> & _).
        cbn [map fst]. now rewrite last_cons.
Qed.

(** C9.  Over any sequence of events, from any state, the metrics are
    published at most once per 120 ms of wall-clock time: each publication
    comes at least 120 ms after the one before (the first at least 120 ms
    after the publication recorded in the starting state), and a frame whose
    wall-clock time is less than 120 ms after the last publication publishes
    nothing and leaves the published metrics as they are.  Hence frames
    whose wall-clock times span at most [span] ms yield at most
    span / 120 + 1 publications, however many they are: at most 5 within
    500 ms. *)
Theorem publications_are_throttled (events : list Event) (st : State) :
  let times := map fst (snd (run events st)) in
  spaced (lastUiUpdate st) times
  /\ lastUiUpdate (fst (run events st)) = last times (lastUiUpdate st)
  /\ (forall f,
         now f - lastUiUpdate st < 120 ->
         snd (step f st) = None
         /\ lastUiUpdate (fst (step f st)) = lastUiUpdate st
         /\ uiState (fst (step f st)) = uiState st)
  /\ (forall t0 span,
         0 <= span ->
         (forall f, In (Tick f) events -> t0 <= now f <= t0 + span) ->
         (INR (List.length times) - 1) * 120 <= span)
  /\ (forall t0,
         (forall f, In (Tick f) events -> t0 <= now f <= t0 + 500) ->
         (List.length times <= 5)%nat).
Proof.
  cbv zeta.
  pose proof (run_spaced events st) as Hsp.
  assert (Hspan : forall t0 span,
             0 <= span ->
             (forall f, In (Tick f) events -> t0 <= now f <= t0 + span) ->
             (INR (List.length (map fst (snd (run events st)))) - 1) * 120
             <= span).
  { intros t0 span Hpos Hwindow.
    assert (Hin : forall u, In u (map fst (snd (run events st))) ->
                            t0 <= u <= t0 + span).
    { intros u Hu. destruct (run_times events st u Hu) as [f [Hf <-]].
      now apply Hwindow. }
    destruct (map fst (snd (run events st))) as [| t later] eqn:E.
    - cbn. lra.
    - pose proof (spaced_span later _ t (t0 + span) Hsp
                    (fun u Hu => proj2 (Hin u Hu))) as Hlate.
      pose proof (proj1 (Hin t (or_introl eq_refl))) as Hearly.
      change (List.length (t :: later)) with (S (List.length later)).
      rewrite S_INR. unfold UI_INTERVAL in Hlate. lra. }
  split; [exact Hsp |].
  split; [apply run_lastUiUpdate |].
  split; [intros f Hsoon; now apply step_silent |].
  split; [exact Hspan |].
  intros t0 Hwindow.
  specialize (Hspan t0 500 ltac:(lra) Hwindow).
  apply INR_le.
  destruct (Nat.le_gt_cases (List.length (map fst (snd (run events st)))) 5)
    as [Hle | Hgt]; [now apply le_INR |].
  apply le_INR in Hgt. cbn in Hgt. lra.
Qed.

Lemma publications_are_throttled_witness :
  let events :=
    [ Resize (fun _ => 0.25) 800 600;
      Tick (frameAt 0.25 800 600 100);
      Tick (frameAt 0.25 800 600 130);
      Tick (frameAt 0.25 800 600 200);
      Tick (frameAt 0.25 800 600 260) ] in
  (List.length (map fst (snd (run events useGame))) <= 5)%nat
  /\ snd (step (frameAt 0.25 800 600 100) (started 0.25 800 600)) = None.
Proof.
  cbv zeta. split.
  - apply (publications_are_throttled _ useGame) with (t0 := 0).
    intros f [H | [H | [H | [H | [H | []]]]]];
      try discriminate H; injection H as <-; cbn; lra.
  - apply (publications_are_throttled [] (started 0.25 800 600)).
    cbn. lra.
Defined.

(** * Further properties of the code *)

(** ** Key handlers *)

Lemma reachable_pressedKeys_witness :
  NoDup (pressedKeysRef
           (fst (run [KeyDown "W"; KeyDown "w"; KeyDown "q"; KeyUp "ArrowUp"]
                   useGame))).
Proof.
  apply reachable_pressedKeys. eexists. reflexivity.
Defined.

Lemma lowerAscii_idem (c : ascii) : lowerAscii (lowerAscii c) = lowerAscii c.
Proof. destruct c as [[] [] [] [] [] [] [] []]; reflexivity. Qed.

Lemma toLowerCase_idem (s : string) : toLowerCase (toLowerCase s) = toLowerCase s.
Proof.
  induction s as [| c rest IH]; cbn [toLowerCase]; [reflexivity |].
  now rewrite lowerAscii_idem, IH.
Qed.

Lemma setAdd_In (key : string) (keys : list string) : In key (setAdd key keys).
Proof.
  unfold setAdd. destruct (in_dec string_dec key keys) as [Hin | Hout].
  - exact Hin.
  - apply in_or_app. right. now left.
Qed.

Lemma setAdd_idem (key : string) (keys : list string) :
  setAdd key (setAdd key keys) = setAdd key keys.
Proof.
  pose proof (setAdd_In key keys) as Hin.
  unfold setAdd at 1.
  destruct (in_dec string_dec key (setAdd key keys)); [reflexivity |].
  contradiction.
Qed.

Lemma setAdd_other (key other : string) (keys : list string) :
  other <> key -> (In other (setAdd key keys) <-> In other keys).
Proof.
  intros Hneq. unfold setAdd.
  destruct (in_dec string_dec key keys); [reflexivity |].
  rewrite in_app_iff. cbn. intuition congruence.
Qed.

Lemma setDelete_In (key other : string) (keys : list string) :
  In other (setDelete key keys) <-> In other keys /\ other <> key.
Proof.
  unfold setDelete. rewrite filter_In, negb_true_iff, String.eqb_neq.
  reflexivity.
Qed.

Lemma setDelete_absent (key : string) (keys : list string) :
  ~ In key keys -> setDelete key keys = keys.
Proof.
  intros Hout. unfold setDelete.
  induction keys as [| k rest IH]; [reflexivity |].
  cbn [filter].
  destruct (String.eqb_spec k key) as [-> | Hneq].
  - exfalso. apply Hout. now left.
  - cbn [negb]. f_equal. apply IH. intros Hin. apply Hout. now right.
Qed.

Lemma setDelete_setAdd (key : string) (keys : list string) :
  ~ In key keys -> setDelete key (setAdd key keys) = keys.
Proof.
  intros Hout. unfold setAdd.
  destruct (in_dec string_dec key keys); [contradiction |].
  unfold setDelete. rewrite filter_app. cbn [filter].
  rewrite String.eqb_refl. cbn [negb]. rewrite app_nil_r.
  now apply setDelete_absent.
Qed.

Lemma withPressedKeys_same (st : State) :
  withPressedKeys (pressedKeysRef st) st = st.
Proof. destruct st; reflexivity. Qed.

(** X2.  Key events are matched case-insensitively (on the ASCII range)
    and a repeated key-down of a held key changes nothing.  A key whose
    lookup in the table object is undefined is ignored by both handlers.  A
    key named like a member the table inherits (such as "constructor") is
    not: its key-down puts it among the pressed keys, and while it is held
    the input vector is NaN, the normalized input {0,0}, and a frame leaves
    the leader where it is, whatever direction keys are held with it. *)
Theorem keydown_is_idempotent (key : string) (st : State) :
  handleKeyDown key (handleKeyDown key st) = handleKeyDown key st
  /\ handleKeyDown (toLowerCase key) st = handleKeyDown key st
  /\ handleKeyUp (toLowerCase key) st = handleKeyUp key st
  /\ (KEY_DIRECTIONS (toLowerCase key) = undefined ->
      handleKeyDown key st = st /\ handleKeyUp key st = st)
  /\ (KEY_DIRECTIONS (toLowerCase key) = inherited ->
      let st' := handleKeyDown key st in
      In (toLowerCase key) (pressedKeysRef st')
      /\ inputVector (pressedKeysRef st') = notANumber
      /\ normalizedInput st' = zero
      /\ forall f, aksRef (fst (step f st')) = aksRef st).
Proof.
  split; [| split; [| split; [| split]]].
  - destruct (handleKeyDown_cases key st) as [[Hdir Hst] | [Hdir Hst]].
    + now rewrite !Hst.
    + destruct (handleKeyDown_cases key (handleKeyDown key st))
        as [[Hdir' _] | [_ ->]]; [contradiction |].
      rewrite Hst. unfold withPressedKeys.
      cbn [pressedKeysRef lastTimestamp aksRef
        oliveRef aksDirectionRef oliveDirectionRef trailRef collectiblesRef
        collectedRef timeRef lastUiUpdate uiState ready].
      now rewrite setAdd_idem.
  - unfold handleKeyDown. now rewrite toLowerCase_idem.
  - unfold handleKeyUp. now rewrite toLowerCase_idem.
  - intros Hnone. unfold handleKeyDown, handleKeyUp. now rewrite Hnone.
  - intros Hproto. cbv zeta.
    assert (Hin : In (toLowerCase key)
                    (pressedKeysRef (handleKeyDown key st))).
    { unfold handleKeyDown. rewrite Hproto.
      cbn [withPressedKeys pressedKeysRef]. apply setAdd_In. }
    pose proof (inputVector_inherited _ _ Hin Hproto) as Hnan.
    assert (Hzero : normalizedInput (handleKeyDown key st) = zero).
    { unfold normalizedInput. now rewrite Hnan. }
    split; [exact Hin |]. split; [exact Hnan |]. split; [exact Hzero |].
    intros f. rewrite step_aksRef, moveAks_idle by exact Hzero.
    unfold handleKeyDown. now rewrite Hproto.
Qed.

Lemma keydown_is_idempotent_witness :
  (handleKeyDown "F5" (started 0.25 800 600) = started 0.25 800 600
   /\ handleKeyUp "F5" (started 0.25 800 600) = started 0.25 800 600)
  /\ (let st' := handleKeyDown "constructor"
                   (handleKeyDown "d" (started 0.25 800 600)) in
      normalizedInput st' = zero
      /\ aksRef (fst (step (frameAt 0.25 800 600 16) st')) =
         aksRef (handleKeyDown "d" (started 0.25 800 600))).
Proof.
  split.
  - apply (keydown_is_idempotent "F5" (started 0.25 800 600)). reflexivity.
  - cbv zeta.
    destruct (keydown_is_idempotent "constructor"
                (handleKeyDown "d" (started 0.25 800 600)))
      as (_ & _ & _ & _ & Hproto).
    destruct Hproto as (_ & _ & Hzero & Hstill); [reflexivity |].
    split; [exact Hzero | apply Hstill].
Defined.

(** X3.  For a key whose lookup in the table object is truthy (each of
    the eight direction keys among them): after its key-down the key is
    held, after its key-up it is not, neither handler touches the other
    held keys, and a key-down followed by the key-up of a key that was not
    held gives back the state exactly. *)
Theorem keyup_releases_key (key : string) (st : State) :
  KEY_DIRECTIONS (toLowerCase key) <> undefined ->
  In (toLowerCase key) (pressedKeysRef (handleKeyDown key st))
  /\ ~ In (toLowerCase key) (pressedKeysRef (handleKeyUp key st))
  /\ (forall other,
         other <> toLowerCase key ->
         (In other (pressedKeysRef (handleKeyDown key st))
          <-> In other (pressedKeysRef st))
         /\ (In other (pressedKeysRef (handleKeyUp key st))
             <-> In other (pressedKeysRef st)))
  /\ (~ In (toLowerCase key) (pressedKeysRef st) ->
      handleKeyUp key (handleKeyDown key st) = st).
Proof.
  intros Hknown.
  destruct (handleKeyDown_cases key st) as [[Hdir _] | [_ Hdown]];
    [contradiction |].
  destruct (handleKeyUp_cases key st) as [[Hdir _] | [_ Hup]];
    [contradiction |].
  destruct (handleKeyUp_cases key (handleKeyDown key st))
    as [[Hdir _] | [_ Hboth]]; [contradiction |].
  rewrite Hboth, Hdown, Hup.
  cbn [withPressedKeys pressedKeysRef].
  split; [apply setAdd_In |].
  split; [rewrite setDelete_In; tauto |].
  split.
  - intros other Hneq. split.
    + now apply setAdd_other.
    + rewrite setDelete_In. tauto.
  - intros Hout. rewrite setDelete_setAdd by exact Hout.
    destruct st; reflexivity.
Qed.

Lemma keyup_releases_key_witness :
  handleKeyUp "D" (handleKeyDown "d" (started 0.25 800 600)) =
  started 0.25 800 600.
Proof.
  apply (keyup_releases_key "D" (started 0.25 800 600)).
  - discriminate.
  - intros [].
Defined.

(** ** Vector helpers *)

(** X4.  [clamp] with ordered bounds returns a value between them: the
    value itself when it is in range, the bound it passed otherwise.  With
    the bounds the wrong way round it returns the upper bound, whatever the
    value. *)
Theorem clamp_cases (value lo hi : R) :
  (lo <= hi ->
   lo <= clamp value lo hi <= hi
   /\ (lo <= value <= hi -> clamp value lo hi = value)
   /\ (value <= lo -> clamp value lo hi = lo)
   /\ (hi <= value -> clamp value lo hi = hi)
   /\ clamp (clamp value lo hi) lo hi = clamp value lo hi)
  /\ (hi < lo -> clamp value lo hi = hi).
Proof.
  unfold clamp, Rmin, Rmax. split.
  - intros Hle.
    repeat split; intros;
      repeat (destruct (Rle_dec _ _)); lra.
  - intros Hgt. repeat (destruct (Rle_dec _ _)); lra.
Qed.

Lemma clamp_cases_witness :
  clamp 65 80 20 = 20 /\ clamp 130 80 120 = 120.
Proof.
  split.
  - apply (clamp_cases 65 80 20). lra.
  - destruct (clamp_cases 130 80 120) as [Hordered _].
    destruct Hordered as (_ & _ & _ & Habove & _); [lra |].
    apply Habove. lra.
Defined.

Lemma length_scale (k : R) (v : Vec2) :
  0 <= k -> length {| x := k * x v; y := k * y v |} = k * length v.
Proof.
  intros Hk. unfold length. cbn [x y].
  replace (k * x v * (k * x v) + k * y v * (k * y v))
    with (k * k * (x v * x v + y v * y v)) by ring.
  rewrite sqrt_mult; [| nra | apply sum_squares_nonneg].
  now rewrite sqrt_square.
Qed.

Lemma normalize_twice (v : Vec2) :
  ~ (x v = 0 /\ y v = 0) -> normalize (normalize v) = normalize v.
Proof.
  intros Hv. pose proof (normalize_unit v Hv) as Hunit.
  assert (Hn : ~ (x (normalize v) = 0 /\ y (normalize v) = 0)).
  { rewrite <- length_zero_iff. lra. }
  destruct (normalize_nonzero _ Hn) as [-> _].
  rewrite Hunit. apply vec2_eq; cbn; field.
Qed.

Lemma normalize_scale (k : R) (v : Vec2) :
  0 < k -> ~ (x v = 0 /\ y v = 0) ->
  normalize {| x := k * x v; y := k * y v |} = normalize v.
Proof.
  intros Hk Hv.
  destruct (normalize_nonzero v Hv) as [-> Hpos].
  assert (Hkv : ~ (x {| x := k * x v; y := k * y v |} = 0
                   /\ y {| x := k * x v; y := k * y v |} = 0)).
  { cbn. intros [H1 H2]. apply Hv. split; nra. }
  destruct (normalize_nonzero _ Hkv) as [-> _].
  rewrite length_scale by lra.
  apply vec2_eq; cbn; field; lra.
Qed.

(** X5.  [normalize] keeps the direction and forgets the magnitude:
    normalizing twice is normalizing once, a positive multiple of a vector
    normalizes to the same result, and the result is the vector divided by
    its length (the zero vector for the zero vector). *)
Theorem normalize_forgets_magnitude (v : Vec2) :
  normalize (normalize v) = normalize v
  /\ (forall k, 0 < k -> normalize {| x := k * x v; y := k * y v |} = normalize v)
  /\ x v = length v * x (normalize v)
  /\ y v = length v * y (normalize v).
Proof.
  destruct (Req_dec_T (x v) 0) as [Hx | Hx];
    [destruct (Req_dec_T (y v) 0) as [Hy | Hy] |].
  - rewrite (normalize_zero v Hx Hy).
    assert (Hlen : length v = 0) by (apply length_zero_iff; now split).
    split; [now apply normalize_zero |].
    split; [| rewrite Hx, Hy, Hlen; cbn; split; ring].
    intros k Hk. apply normalize_zero; cbn; rewrite ?Hx, ?Hy; ring.
  - assert (Hv : ~ (x v = 0 /\ y v = 0)) by tauto.
    split; [now apply normalize_twice |].
    split; [intros k Hk; now apply normalize_scale |].
    destruct (normalize_nonzero v Hv) as [-> Hpos]. cbn. split; field; lra.
  - assert (Hv : ~ (x v = 0 /\ y v = 0)) by tauto.
    split; [now apply normalize_twice |].
    split; [intros k Hk; now apply normalize_scale |].
    destruct (normalize_nonzero v Hv) as [-> Hpos]. cbn. split; field; lra.
Qed.

Lemma normalize_forgets_magnitude_witness :
  normalize {| x := 2 * 1; y := 2 * 0 |} = normalize {| x := 1; y := 0 |}.
Proof.
  apply (normalize_forgets_magnitude {| x := 1; y := 0 |}). lra.
Defined.

Lemma held_permutation (names keys keys' : list string) :
  Permutation keys keys' -> held names keys = held names keys'.
Proof.
  intros Hperm. induction Hperm as [| k l l' _ IH | k k' l | l l' l'' _ IH1 _ IH2].
  - reflexivity.
  - now rewrite !held_cons, IH.
  - rewrite !held_cons. lia.
  - congruence.
Qed.

Lemma existsb_permutation {A : Type} (p : A -> bool) (l l' : list A) :
  Permutation l l' -> existsb p l = existsb p l'.
Proof.
  intros Hperm. induction Hperm as [| a l l' _ IH | a b l | l l' l'' _ IH1 _ IH2].
  - reflexivity.
  - cbn. now rewrite IH.
  - cbn. destruct (p a), (p b); reflexivity.
  - congruence.
Qed.

(** X6.  The input vector does not depend on the order in which the keys
    were pressed: two listings of the same key set give the same vector. *)
Theorem inputVector_ignores_order (keys keys' : list string) :
  Permutation keys keys' -> inputVector keys = inputVector keys'.
Proof.
  intros Hperm. rewrite !inputVector_sum.
  rewrite (existsb_permutation isInherited _ _ Hperm).
  destruct (existsb isInherited keys'); [reflexivity |].
  f_equal. unfold heldSum.
  now rewrite (held_permutation rightKeys _ _ Hperm),
              (held_permutation leftKeys _ _ Hperm),
              (held_permutation downKeys _ _ Hperm),
              (held_permutation upKeys _ _ Hperm).
Qed.

Lemma inputVector_ignores_order_witness :
  inputVector ["w"; "d"]%string = inputVector ["d"; "w"]%string.
Proof.
  apply inputVector_ignores_order. apply perm_swap.
Defined.

(** ** The frame loop *)

Lemma step_lastTimestamp (f : Frame) (st : State) :
  lastTimestamp (fst (step f st)) = Some (timestamp f).
Proof. step_field. Qed.

Lemma step_oliveDirectionRef (f : Frame) (st : State) :
  oliveDirectionRef (fst (step f st)) =
  moveOliveDirection st
    (followTarget (pushTrail (trailRef st) (moveAks f st)) (moveAks f st)).
Proof. step_field. Qed.

Lemma step_ready (f : Frame) (st : State) :
  ready (fst (step f st)) = ready st.
Proof. step_field. Qed.

(** The key handlers touch the pressed keys only. *)
Lemma handleKey_frame (key : string) (st : State) (down : bool) :
  let st' := if down then handleKeyDown key st else handleKeyUp key st in
  lastTimestamp st' = lastTimestamp st
  /\ aksRef st' = aksRef st /\ oliveRef st' = oliveRef st
  /\ aksDirectionRef st' = aksDirectionRef st
  /\ oliveDirectionRef st' = oliveDirectionRef st
  /\ trailRef st' = trailRef st
  /\ collectiblesRef st' = collectiblesRef st
  /\ collectedRef st' = collectedRef st
  /\ timeRef st' = timeRef st
  /\ uiState st' = uiState st
  /\ ready st' = ready st.
Proof.
  cbv zeta. destruct down; unfold handleKeyDown, handleKeyUp;
    destruct (KEY_DIRECTIONS (toLowerCase key)); repeat split; reflexivity.
Qed.

Lemma length_unit_x : length {| x := 1; y := 0 |} = 1.
Proof.
  unfold length. cbn [x y].
  replace (1 * 1 + 0 * 0) with 1 by ring. apply sqrt_1.
Qed.

(** X7.  In every state the event loop can be in, the facing of the leader
    and the facing of the follower are unit vectors: the angle the
    characters are drawn at is always defined. *)
Theorem facings_are_unit (st : State) :
  reachable st ->
  length (aksDirectionRef st) = 1 /\ length (oliveDirectionRef st) = 1.
Proof.
  apply (reachable_invariant
           (fun s => length (aksDirectionRef s) = 1
                     /\ length (oliveDirectionRef s) = 1)).
  - intros e s [Haks Holive].
    destruct e as [key | key | rnd width height | f]; cbn [handle fst].
    + destruct (handleKey_frame key s true) as (_ & _ & _ & -> & -> & _).
      now split.
    + destruct (handleKey_frame key s false) as (_ & _ & _ & -> & -> & _).
      now split.
    + now split.
    + rewrite step_aksDirectionRef, step_oliveDirectionRef. split.
      * unfold moveAksDirection.
        destruct (hasInput s) eqn:Hin; [| exact Haks].
        apply normalizedInput_unit.
        intros Hzero. apply hasInput_false in Hzero. congruence.
      * unfold moveOliveDirection.
        destruct (Rlt_dec 1 (length _)) as [Hfar | _]; [| exact Holive].
        apply normalize_unit. rewrite <- length_zero_iff. lra.
  - split; apply length_unit_x.
Qed.

Lemma facings_are_unit_witness :
  length (aksDirectionRef
            (fst (step (frameAt 0.25 800 600 16)
                       (handleKeyDown "ArrowRight" (started 0.25 800 600))))) = 1.
Proof.
  apply facings_are_unit.
  exists [Resize (fun _ => 0.25) 800 600; KeyDown "ArrowRight";
          Tick (frameAt 0.25 800 600 16)].
  unfold run, handle.
  destruct (step (frameAt 0.25 800 600 16)
              (handleKeyDown "ArrowRight"
                 (initializePositions (fun _ => 0.25) 800 600 useGame)))
    as [st' published] eqn:E.
  unfold started. rewrite E. reflexivity.
Defined.

(** X8.  Over a run of frames the elapsed time telescopes: it grows by the
    span between the previous timestamp and the timestamp of the last frame,
    in seconds; after a reset (no previous timestamp) that is the span from
    the first frame of the run to the last, the first frame counting for
    nothing.  The last timestamp is remembered. *)
Theorem elapsed_time_telescopes (f : Frame) (rest : list Frame) (st : State) :
  let st' := runFrames (f :: rest) st in
  let origin := match lastTimestamp st with
                | Some t => t
                | None => timestamp f
                end in
  timeRef st' = timeRef st + (timestamp (last rest f) - origin) / 1000
  /\ lastTimestamp st' = Some (timestamp (last rest f)).
Proof.
  cbv zeta. revert f st.
  induction rest as [| g rest IH]; intros f st.
  - cbn [last runFrames fold_left].
    rewrite step_timeRef, step_lastTimestamp. split; reflexivity.
  - rewrite runFrames_cons.
    destruct (IH g (fst (step f st))) as [Htime Hlast].
    rewrite last_cons, Htime, Hlast, step_timeRef, step_lastTimestamp.
    split; [| reflexivity].
    unfold delta. lra.
Qed.

Lemma pickups_bounded (aks : Vec2) (batch : list Collectible) :
  (pickups aks batch <= List.length (filter (fun c => negb (taken c)) batch))%nat.
Proof.
  unfold pickups. induction batch as [| c rest IH]; [apply Nat.le_refl |].
  cbn [filter]. unfold picked at 1.
  destruct (taken c); cbn [negb andb List.length]; [exact IH |].
  destruct (Rlt_dec _ 30); cbn [List.length]; lia.
Qed.

(** X9.  The collected counter never goes down over a run of frames, and
    one frame adds at most the number of collectibles of the batch that
    were not yet taken. *)
Theorem collected_only_grows :
  (forall f st,
      (collectedRef st <= collectedRef (fst (step f st))
       <= collectedRef st
          + List.length (filter (fun c => negb (taken c)) (collectiblesRef st)))%nat)
  /\ (forall frames st,
         (collectedRef st <= collectedRef (runFrames frames st))%nat).
Proof.
  assert (Hstep : forall f st,
             (collectedRef st <= collectedRef (fst (step f st))
              <= collectedRef st
                 + List.length (filter (fun c => negb (taken c))
                                  (collectiblesRef st)))%nat).
  { intros f st. rewrite step_collectedRef, visitCollectibles_count.
    pose proof (pickups_bounded (moveAks f st) (collectiblesRef st)). lia. }
  split; [exact Hstep |].
  intros frames. induction frames as [| f rest IH]; intros st.
  - apply Nat.le_refl.
  - rewrite runFrames_cons.
    specialize (IH (fst (step f st))). specialize (Hstep f st). lia.
Qed.

Lemma forallb_false {A : Type} (p : A -> bool) (l : list A) :
  forallb p l = false -> exists a, In a l /\ p a = false.
Proof.
  induction l as [| a rest IH]; cbn [forallb]; [discriminate |].
  destruct (p a) eqn:Hp.
  - intros H. destruct (IH H) as [b [Hin Hb]].
    exists b. split; [now right | exact Hb].
  - intros _. exists a. split; [now left | exact Hp].
Qed.

(** X10.  Whatever the state, after a frame the batch holds a collectible
    that is not taken: a frame never leaves the screen without a star. *)
Theorem a_star_is_left (f : Frame) (st : State) :
  exists c, In c (collectiblesRef (fst (step f st))) /\ taken c = false.
Proof.
  rewrite step_collectiblesRef. unfold refreshCollectibles.
  destruct (forallb taken _) eqn:Hall.
  - eexists. split; [left; reflexivity | reflexivity].
  - now apply forallb_false.
Qed.

(** X11.  Once [initializePositions] has run ([ready] is set), the batch
    always consists of six collectibles with the ids 0 to 5 in order, and
    the trail is never empty. *)
Theorem batch_keeps_its_ids (st : State) :
  reachable st ->
  ready st = true ->
  map id (collectiblesRef st) = seq 0 6 /\ trailRef st <> [].
Proof.
  apply (reachable_invariant
           (fun s => ready s = true ->
                     map id (collectiblesRef s) = seq 0 6 /\ trailRef s <> [])).
  - intros e s IH.
    destruct e as [key | key | rnd width height | f]; cbn [handle fst].
    + destruct (handleKey_frame key s true)
        as (_ & _ & _ & _ & _ & -> & -> & _ & _ & _ & ->). exact IH.
    + destruct (handleKey_frame key s false)
        as (_ & _ & _ & _ & _ & -> & -> & _ & _ & _ & ->). exact IH.
    + intros _. split; [reflexivity | discriminate].
    + rewrite step_ready, step_collectiblesRef, step_trailRef.
      intros Hready. destruct (IH Hready) as [Hids _].
      split.
      * unfold refreshCollectibles.
        destruct (forallb taken _); [reflexivity |].
        rewrite visitCollectibles_items, map_map, <- Hids.
        apply map_ext. intros c.
        unfold visitCollectible. destruct (taken c); reflexivity.
      * pose proof (pushTrail_nonempty (trailRef s) (moveAks f s)) as Hlen.
        intros Hnil. rewrite Hnil in Hlen. cbn in Hlen. lia.
  - discriminate.
Qed.

Lemma batch_keeps_its_ids_witness :
  map id (collectiblesRef (started 0.25 800 600)) = seq 0 6.
Proof.
  apply (batch_keeps_its_ids (started 0.25 800 600)).
  - exists [Resize (fun _ => 0.25) 800 600]. reflexivity.
  - reflexivity.
Defined.

(** ** Leader and follower *)

(** X12.  From any state the event loop can be in, after a run of 35 or
    more frames the point the follower heads for is the position the leader
    had 34 frames before the last one. *)
Theorem follower_lags_34_frames (st : State) (frames : list Frame) :
  reachable st ->
  (35 <= List.length frames)%nat ->
  let st' := runFrames frames st in
  nth_error (leaderPath frames st) (List.length frames - 35) =
  Some (followTarget (trailRef st') (aksRef st')).
Proof.
  intros Hreach Hmany. cbv zeta.
  pose proof (reachable_trail_bounded st Hreach) as Hbound.
  pose proof (runFrames_trail frames st Hbound) as Htrail.
  pose proof (leaderPath_length frames st) as Hpath.
  set (trail' := trailRef (runFrames frames st)) in *.
  assert (Hlen : List.length trail' =
                 Nat.min TRAIL_LIMIT
                   (List.length (trailRef st) + List.length frames)).
  { rewrite Htrail, lastn_length, length_app, Hpath. reflexivity. }
  unfold TRAIL_LIMIT in *.
  rewrite <- (followTarget_sample trail' (aksRef (runFrames frames st)))
    by lia.
  replace (Z.to_nat (targetIndex trail')) with (List.length trail' - 35)%nat
    by (unfold targetIndex, FOLLOW_DELAY; lia).
  rewrite Hlen, Htrail. unfold lastn.
  rewrite nth_error_skipn, length_app, Hpath.
  rewrite nth_error_app2 by lia.
  f_equal. lia.
Qed.

Lemma follower_lags_34_frames_witness :
  let st := started 0.25 800 600 in
  let frames := repeat (frameAt 0.25 800 600 0) 40 in
  nth_error (leaderPath frames st) 5 =
  Some (followTarget (trailRef (runFrames frames st))
          (aksRef (runFrames frames st))).
Proof.
  cbv zeta.
  apply (follower_lags_34_frames
           (started 0.25 800 600) (repeat (frameAt 0.25 800 600 0) 40)).
  - apply started_reachable.
  - rewrite repeat_length. lia.
Defined.

Lemma length_le (v : Vec2) (r : R) :
  0 <= r -> x v * x v + y v * y v <= r * r -> length v <= r.
Proof.
  intros Hr Hsq. rewrite <- length_square in Hsq.
  pose proof (length_nonneg v). nra.
Qed.

Lemma clamp_inside (value lo hi : R) :
  lo <= value <= hi -> clamp value lo hi = value.
Proof.
  intros Hin. unfold clamp, Rmin, Rmax.
  repeat (destruct (Rle_dec _ _)); lra.
Qed.

(** Clamping towards an interval brings a value no further from a point of
    the interval. *)
Lemma clamp_nonexpansive (value anchor lo hi : R) :
  lo <= anchor <= hi ->
  (clamp value lo hi - anchor) * (clamp value lo hi - anchor)
  <= (value - anchor) * (value - anchor).
Proof.
  intros Hanchor. unfold clamp, Rmin, Rmax.
  repeat (destruct (Rle_dec _ _)); nra.
Qed.

(** X13.  A leader on the walkway moves at most 280 units per second: the
    distance it covers in a frame with delta >= 0 is at most 280 * delta,
    however many keys are held. *)
Theorem leader_speed_is_bounded (f : Frame) (st : State) :
  0 <= delta f st ->
  inWalkway (clientWidth f) (clientHeight f) (aksRef st) ->
  length (between (aksRef st) (aksRef (fst (step f st))))
  <= SPEED * delta f st.
Proof.
  intros Hdt [Hx Hy]. rewrite step_aksRef.
  apply length_le; [unfold SPEED; lra |].
  unfold between. cbn [x y].
  destruct (hasInput st) eqn:Hin.
  - assert (Hmove : normalizedInput st <> zero).
    { intros Hzero. apply hasInput_false in Hzero. congruence. }
    rewrite moveAks_moving by exact Hmove.
    unfold clampToWalkway. cbn [x y].
    assert (Hunit : x (normalizedInput st) * x (normalizedInput st)
                    + y (normalizedInput st) * y (normalizedInput st) = 1).
    { rewrite <- length_square.
      rewrite normalizedInput_unit by exact Hmove. ring. }
    set (n := normalizedInput st) in *.
    pose proof (clamp_nonexpansive
                  (x (aksRef st) + x n * SPEED * delta f st)
                  (x (aksRef st)) _ _ Hx) as Hcx.
    pose proof (clamp_nonexpansive
                  (y (aksRef st) + y n * SPEED * delta f st)
                  (y (aksRef st)) _ _ Hy) as Hcy.
    replace (SPEED * delta f st * (SPEED * delta f st))
      with ((x n * x n + y n * y n)
            * (SPEED * delta f st * (SPEED * delta f st)))
      by (rewrite Hunit; ring).
    nra.
  - apply hasInput_false in Hin. rewrite moveAks_idle by exact Hin.
    unfold SPEED. nra.
Qed.

Lemma leader_speed_is_bounded_witness :
  let st := fst (step (frameAt 0.25 800 600 0)
                      (handleKeyDown "d" (started 0.25 800 600))) in
  let f := frameAt 0.25 800 600 16 in
  length (between (aksRef st) (aksRef (fst (step f st)))) <= SPEED * delta f st.
Proof.
  cbv zeta.
  apply leader_speed_is_bounded.
  - unfold delta. rewrite step_lastTimestamp. cbn. lra.
  - rewrite step_aksRef. unfold moveAks.
    destruct (hasInput _).
    + apply clampToWalkway_inside; cbn; unfold EDGE_PADDING; lra.
    + pose proof (handleKey_frame "d" (started 0.25 800 600) true) as Hkey.
      cbv beta zeta iota in Hkey. destruct Hkey as (_ & Haks & _).
      rewrite Haks. unfold inWalkway, EDGE_PADDING. cbn. lra.
Defined.

Lemma stepFactor_range (dt : R) : 0 <= dt -> 0 <= stepFactor dt <= 1.
Proof.
  intros Hdt. unfold stepFactor, Rmin.
  destruct (Rle_dec 1 (dt * 6)); lra.
Qed.

(** X14.  The follower never overshoots.  In a frame with delta >= 0 whose
    target lies on the walkway, the follower's distance to the target
    shrinks at least by the factor 1 - min(1, 6 delta); with
    delta >= 1/6 the follower lands on the target.  The follower ends the
    frame on the walkway whenever the play area is at least 160 x 160. *)
Theorem follower_closes_in (f : Frame) (st : State) :
  let st' := fst (step f st) in
  let target := followTarget (trailRef st') (aksRef st') in
  0 <= delta f st ->
  (inWalkway (clientWidth f) (clientHeight f) target ->
   length (between (oliveRef st') target)
   <= (1 - stepFactor (delta f st)) * length (between (oliveRef st) target)
   /\ (1 <= delta f st * 6 -> oliveRef st' = target))
  /\ (EDGE_PADDING <= clientWidth f - EDGE_PADDING ->
      EDGE_PADDING <= clientHeight f - EDGE_PADDING ->
      inWalkway (clientWidth f) (clientHeight f) (oliveRef st')).
Proof.
  cbv zeta. intros Hdt.
  rewrite step_oliveRef, step_trailRef, step_aksRef.
  set (target := followTarget _ _).
  pose proof (stepFactor_range _ Hdt) as Hs.
  split.
  - intros [Hx Hy].
    unfold moveOlive, clampToWalkway, interpolate. cbn [x y].
    set (s := stepFactor (delta f st)) in *.
    set (ox := x (oliveRef st)). set (oy := y (oliveRef st)).
    pose proof (clamp_nonexpansive (ox + (x target - ox) * s)
                  (x target) _ _ Hx) as Hcx.
    pose proof (clamp_nonexpansive (oy + (y target - oy) * s)
                  (y target) _ _ Hy) as Hcy.
    split.
    + apply length_le.
      * pose proof (length_nonneg (between (oliveRef st) target)). nra.
      * unfold between at 1 2 3 4. cbn [x y].
        replace ((1 - s) * length (between (oliveRef st) target)
                 * ((1 - s) * length (between (oliveRef st) target)))
          with ((1 - s) * (1 - s)
                * (length (between (oliveRef st) target)
                   * length (between (oliveRef st) target))) by ring.
        rewrite length_square. unfold between. cbn [x y].
        fold ox oy. nra.
    + intros Hfull.
      assert (Hone : s = 1).
      { unfold s, stepFactor, Rmin. destruct (Rle_dec 1 _); lra. }
      rewrite Hone in *.
      apply vec2_eq; cbn [x y].
      * replace (ox + (x target - ox) * 1) with (x target) by ring.
        now apply clamp_inside.
      * replace (oy + (y target - oy) * 1) with (y target) by ring.
        now apply clamp_inside.
  - intros Hw Hh. unfold moveOlive. now apply clampToWalkway_inside.
Qed.

Lemma leaderPath_idle (frames : list Frame) (st : State) :
  normalizedInput st = zero ->
  leaderPath frames st = repeat (aksRef st) (List.length frames).
Proof.
  revert st. induction frames as [| f rest IH]; intros st Hidle.
  - reflexivity.
  - cbn [leaderPath List.length repeat].
    assert (Hidle' : normalizedInput (fst (step f st)) = zero).
    { unfold normalizedInput in *. now rewrite step_pressedKeysRef. }
    rewrite (IH _ Hidle'), step_aksRef, moveAks_idle by exact Hidle.
    reflexivity.
Qed.

Lemma runFrames_snoc (frames : list Frame) (f : Frame) (st : State) :
  runFrames (frames ++ [f]) st = fst (step f (runFrames frames st)).
Proof. unfold runFrames. rewrite fold_left_app. reflexivity. Qed.

(** Frames that repeat one timestamp have delta 0: they leave a follower
    that is on the walkway where it is. *)
Lemma runFrames_same_instant (f : Frame) (n : nat) (st : State) :
  lastTimestamp st = None \/ lastTimestamp st = Some (timestamp f) ->
  inWalkway (clientWidth f) (clientHeight f) (oliveRef st) ->
  oliveRef (runFrames (repeat f n) st) = oliveRef st
  /\ (n <> 0%nat ->
      lastTimestamp (runFrames (repeat f n) st) = Some (timestamp f)).
Proof.
  revert st. induction n as [| n IH]; intros st Hlast [Hx Hy].
  - split; [reflexivity | congruence].
  - cbn [repeat]. rewrite runFrames_cons.
    assert (Hdt : delta f st = 0).
    { unfold delta. destruct Hlast as [-> | ->]; field. }
    assert (Hstay : oliveRef (fst (step f st)) = oliveRef st).
    { rewrite step_oliveRef. unfold moveOlive, interpolate, clampToWalkway.
      rewrite Hdt. unfold stepFactor.
      replace (Rmin 1 (0 * 6)) with 0
        by (unfold Rmin; destruct (Rle_dec 1 (0 * 6)); lra).
      cbn [x y]. apply vec2_eq; cbn [x y];
        rewrite Rmult_0_r, Rplus_0_r; now apply clamp_inside. }
    destruct (IH (fst (step f st))) as [Holive Htime].
    + right. apply step_lastTimestamp.
    + rewrite Hstay. now split.
    + rewrite Holive, Hstay. split; [reflexivity |].
      intros _. destruct n as [| n].
      * apply step_lastTimestamp.
      * apply Htime. discriminate.
Qed.

(** A session on an 800 x 600 canvas, idle for 35 frames at time 0: on the
    frame at 50 ms the follower, still on its starting point (400, 360),
    heads for the leader's point (520, 330) with delta 0.05. *)
Lemma lagging_follower :
  let st := runFrames (repeat (frameAt 0.25 800 600 0) 35)
              (started 0.25 800 600) in
  let f := frameAt 0.25 800 600 50 in
  let st' := fst (step f st) in
  delta f st = 0.05
  /\ oliveRef st = {| x := 800 * 0.5; y := 600 * 0.6 |}
  /\ followTarget (trailRef st') (aksRef st') =
     {| x := 800 * 0.65; y := 600 * 0.55 |}.
Proof.
  cbv zeta.
  set (idle := frameAt 0.25 800 600 0).
  set (f := frameAt 0.25 800 600 50).
  set (st0 := started 0.25 800 600).
  assert (Hquiet : normalizedInput st0 = zero).
  { apply hasInput_false, hasInput_no_keys. reflexivity. }
  destruct (runFrames_same_instant idle 35 st0) as [Holive Htime].
  { left. reflexivity. }
  { unfold inWalkway, EDGE_PADDING. cbn. lra. }
  specialize (Htime ltac:(discriminate)).
  split; [| split].
  - unfold delta. rewrite Htime. cbn [timestamp f idle frameAt]. lra.
  - rewrite Holive. reflexivity.
  - rewrite <- runFrames_snoc.
    destruct (runFrames_idle (repeat idle 35 ++ [f]) st0 Hquiet) as [-> _].
    rewrite runFrames_trail by (cbn; unfold TRAIL_LIMIT; lia).
    rewrite leaderPath_idle by exact Hquiet.
    rewrite length_app, repeat_length.
    change (trailRef st0) with [ {| x := 800 * 0.5; y := 600 * 0.6 |} ].
    change (aksRef st0) with {| x := 800 * 0.65; y := 600 * 0.55 |}.
    generalize {| x := 800 * 0.5; y := 600 * 0.6 |}.
    generalize {| x := 800 * 0.65; y := 600 * 0.55 |}.
    intros aks0 olive0. reflexivity.
Qed.

Lemma follower_closes_in_witness :
  let st := runFrames (repeat (frameAt 0.25 800 600 0) 35)
              (started 0.25 800 600) in
  let f := frameAt 0.25 800 600 50 in
  let st' := fst (step f st) in
  let target := followTarget (trailRef st') (aksRef st') in
  (delta f st = 0.05
   /\ oliveRef st = {| x := 800 * 0.5; y := 600 * 0.6 |}
   /\ target = {| x := 800 * 0.65; y := 600 * 0.55 |})
  /\ length (between (oliveRef st') target)
     <= (1 - stepFactor (delta f st)) * length (between (oliveRef st) target).
Proof.
  cbv zeta. split; [exact lagging_follower |].
  destruct lagging_follower as (Hdt & _ & Htarget).
  apply (follower_closes_in (frameAt 0.25 800 600 50)
           (runFrames (repeat (frameAt 0.25 800 600 0) 35)
              (started 0.25 800 600))).
  - rewrite Hdt. lra.
  - rewrite Htarget. unfold inWalkway, EDGE_PADDING. cbn. lra.
Defined.

(** ** A session on a canvas of constant size *)

Section Steady.

Variables (P : State -> Prop) (Q : Event -> Prop).
Hypothesis P_handle : forall e st, Q e -> P st -> P (fst (handle e st)).

Lemma run_invariant_on (events : list Event) (st : State) :
  Forall Q events -> P st -> P (fst (run events st)).
Proof.
  revert st. induction events as [| e rest IH]; intros st Hevents HP.
  - exact HP.
  - rewrite run_cons_state.
    inversion Hevents as [| ? ? He Hrest]; subst.
    apply IH; [exact Hrest |]. now apply P_handle.
Qed.

End Steady.

Lemma pushTrail_Forall (Q : Vec2 -> Prop) (trail : list Vec2) (aks : Vec2) :
  Forall Q trail -> Q aks -> Forall Q (pushTrail trail aks).
Proof.
  intros Htrail Haks. unfold pushTrail.
  assert (Hpushed : Forall Q (trail ++ [aks])).
  { apply Forall_app. split; [exact Htrail | now constructor]. }
  destruct (_ <? _)%nat; [| exact Hpushed].
  destruct (trail ++ [aks]); [constructor |].
  now inversion Hpushed.
Qed.

Lemma visitCollectibles_positions
    (aks : Vec2) (dt : R) (batch : list Collectible) (count : nat) :
  map position (fst (visitCollectibles aks dt batch count)) =
  map position batch.
Proof.
  rewrite visitCollectibles_items, map_map.
  apply map_ext. intros c.
  unfold visitCollectible. destruct (taken c); reflexivity.
Qed.

Lemma moveAks_inside (f : Frame) (st : State) :
  EDGE_PADDING <= clientWidth f - EDGE_PADDING ->
  EDGE_PADDING <= clientHeight f - EDGE_PADDING ->
  inWalkway (clientWidth f) (clientHeight f) (aksRef st) ->
  inWalkway (clientWidth f) (clientHeight f) (moveAks f st).
Proof.
  intros Hw Hh Hin. unfold moveAks.
  destruct (hasInput st); [now apply clampToWalkway_inside | exact Hin].
Qed.

(** X15.  A session started on a canvas at least 229 wide (0.35 width >= 80)
    and 220 high stays on stage for as long as the canvas keeps that size
    and the random draws are in [0, 1): after any sequence of key, resize and
    frame events the leader, the follower and every sample of the trail are
    on the walkway, and the batch holds six collectibles, all inside the
    inset rectangle. *)
Theorem session_stays_on_stage
    (rnd : nat -> R) (width height : R) (st0 : State) (events : list Event) :
  80 <= width * 0.35 ->
  220 <= height ->
  unitDraws rnd ->
  Forall (steadyEvent width height) events ->
  onStage width height
    (fst (run events (initializePositions rnd width height st0))).
Proof.
  intros Hw Hh Hdraws Hsteady.
  assert (Hfresh : forall draws, unitDraws draws ->
             onStage width height
               (initializePositions draws width height st0) ).
  { intros draws Hd. unfold onStage, initializePositions, inWalkway.
    cbn [aksRef oliveRef trailRef collectiblesRef x y].
    unfold EDGE_PADDING.
    split; [lra |]. split; [lra |].
    split; [constructor; [cbn; lra | constructor] |].
    split; [reflexivity |].
    apply generateCollectibles_inset; unfold EDGE_PADDING; try assumption; lra. }
  apply (run_invariant_on (onStage width height) (steadyEvent width height));
    [| exact Hsteady | now apply Hfresh].
  clear Hsteady events. intros e st He (Haks & Holive & Htrail & Hsize & Hinset).
  destruct e as [key | key | draws w h | f]; cbn [handle fst steadyEvent] in *.
  - pose proof (handleKey_frame key st true) as Hkey.
    cbv beta zeta iota in Hkey.
    destruct Hkey as (_ & Ha & Ho & _ & _ & Ht & Hc & _).
    unfold onStage. rewrite Ha, Ho, Ht, Hc.
    exact (conj Haks (conj Holive (conj Htrail (conj Hsize Hinset)))).
  - pose proof (handleKey_frame key st false) as Hkey.
    cbv beta zeta iota in Hkey.
    destruct Hkey as (_ & Ha & Ho & _ & _ & Ht & Hc & _).
    unfold onStage. rewrite Ha, Ho, Ht, Hc.
    exact (conj Haks (conj Holive (conj Htrail (conj Hsize Hinset)))).
  - destruct He as (-> & -> & Hd).
    unfold onStage, initializePositions, inWalkway.
    cbn [aksRef oliveRef trailRef collectiblesRef x y].
    unfold EDGE_PADDING.
    split; [lra |]. split; [lra |].
    split; [constructor; [cbn; lra | constructor] |].
    split; [reflexivity |].
    apply generateCollectibles_inset; unfold EDGE_PADDING; try assumption; lra.
  - destruct He as (Hfw & Hfh & Hd).
    assert (Hmoved : inWalkway width height (moveAks f st)).
    { rewrite <- Hfw, <- Hfh. apply moveAks_inside;
        rewrite ?Hfw, ?Hfh; unfold EDGE_PADDING; try assumption; lra. }
    unfold onStage.
    rewrite step_aksRef, step_oliveRef, step_trailRef, step_collectiblesRef.
    split; [exact Hmoved |].
    split.
    { unfold moveOlive. rewrite Hfw, Hfh.
      apply clampToWalkway_inside; unfold EDGE_PADDING; lra. }
    split; [now apply pushTrail_Forall |].
    unfold refreshCollectibles. destruct (forallb taken _).
    + split; [reflexivity |].
      rewrite Hfw, Hfh.
      apply generateCollectibles_inset; unfold EDGE_PADDING; try assumption; lra.
    + split.
      * rewrite <- Hsize, <- (length_map position),
          visitCollectibles_positions.
        apply length_map.
      * apply Forall_map. rewrite visitCollectibles_positions.
        apply Forall_map. exact Hinset.
Qed.

Lemma session_stays_on_stage_witness :
  onStage 800 600
    (fst (run [KeyDown "d"; Tick (frameAt 0.25 800 600 0);
               Tick (frameAt 0.25 800 600 16)]
            (initializePositions (fun _ => 0.25) 800 600 useGame))).
Proof.
  apply session_stays_on_stage.
  - lra.
  - lra.
  - apply (unitDraws_const 0.25). lra.
  - assert (Htick : forall t, steadyEvent 800 600 (Tick (frameAt 0.25 800 600 t))).
    { intros t. cbn. split; [reflexivity |]. split; [reflexivity |].
      apply (unitDraws_const 0.25). lra. }
    apply Forall_cons; [exact I |].
    apply Forall_cons; [apply Htick |].
    apply Forall_cons; [apply Htick | apply Forall_nil].
Defined.

(** ** Published metrics *)

Lemma step_uiState (f : Frame) (st : State) :
  uiState (fst (step f st)) =
  match snd (step f st) with
  | Some ui => ui
  | None => uiState st
  end.
Proof.
  unfold step.
  destruct (visitCollectibles _ _ _ _); destruct (updateUiState _ _ _ _ _).
  reflexivity.
Qed.

(** X16.  The metrics held for the panel are those of the latest
    publication; key events and resizes leave them as they are, so after a
    resize the panel keeps showing the metrics published before it until a
    frame publishes again. *)
Theorem panel_shows_last_publication (events : list Event) (st : State) :
  uiState (fst (run events st)) =
  last (map snd (snd (run events st))) (uiState st).
Proof.
  revert st. induction events as [| e rest IH]; intros st.
  - reflexivity.
  - rewrite run_cons_state, run_cons, IH.
    destruct e as [key | key | rnd width height | f]; cbn [handle fst snd].
    + pose proof (handleKey_frame key st true) as Hkey.
      cbv beta zeta iota in Hkey.
      destruct Hkey as (_ & _ & _ & _ & _ & _ & _ & _ & _ & -> & _).
      reflexivity.
    + pose proof (handleKey_frame key st false) as Hkey.
      cbv beta zeta iota in Hkey.
      destruct Hkey as (_ & _ & _ & _ & _ & _ & _ & _ & _ & -> & _).
      reflexivity.
    + reflexivity.
    + rewrite step_uiState.
      destruct (snd (step f st)) as [ui |]; [| reflexivity].
      cbn [map snd]. now rewrite last_cons.
Qed.

(** ** Fresh batches, again *)

(** X17.  With draws in [0, 1), every collectible of a fresh batch has a
    spin in [0, 2 pi) and an x coordinate between 110 and width - 110, the
    first bound included: in [110, width - 110) on a canvas at least 220
    wide, and in (width - 110, 110] on a narrower one, where the interval
    is turned around.  The same holds for y and the height. *)
Theorem fresh_batch_ranges
    (rnd : nat -> R) (width height : R) (c : Collectible) :
  unitDraws rnd ->
  In c (generateCollectibles rnd width height) ->
  0 <= spin c < 2 * PI
  /\ (220 <= width -> 110 <= x (position c) <= width - 110)
  /\ (220 < width -> 110 <= x (position c) < width - 110)
  /\ (width < 220 -> width - 110 < x (position c) <= 110)
  /\ (220 <= height -> 110 <= y (position c) <= height - 110)
  /\ (220 < height -> 110 <= y (position c) < height - 110)
  /\ (height < 220 -> height - 110 < y (position c) <= 110).
Proof.
  intros Hdraws Hin.
  unfold generateCollectibles in Hin.
  apply in_map_iff in Hin as [index [<- _]].
  cbn [spin position x y]. unfold EDGE_PADDING.
  pose proof (Hdraws (3 * index)%nat) as Hx.
  pose proof (Hdraws (3 * index + 1)%nat) as Hy.
  pose proof (Hdraws (3 * index + 2)%nat) as Hs.
  pose proof PI_RGT_0 as Hpi.
  repeat split; intros; nra.
Qed.

Lemma fresh_batch_ranges_witness :
  let c := {| id := 0;
              position :=
                {| x := EDGE_PADDING + 30
                        + 0.25 * (200 - (EDGE_PADDING + 30) * 2);
                   y := EDGE_PADDING + 30
                        + 0.25 * (600 - (EDGE_PADDING + 30) * 2) |};
              taken := false;
              spin := 0.25 * PI * 2 |} in
  200 - 110 < x (position c) <= 110 /\ 110 <= y (position c) <= 600 - 110.
Proof.
  cbv zeta.
  destruct (fresh_batch_ranges (fun _ => 0.25) 200 600
              {| id := 0;
                 position :=
                   {| x := EDGE_PADDING + 30
                           + 0.25 * (200 - (EDGE_PADDING + 30) * 2);
                      y := EDGE_PADDING + 30
                           + 0.25 * (600 - (EDGE_PADDING + 30) * 2) |};
                 taken := false;
                 spin := 0.25 * PI * 2 |})
    as (_ & _ & _ & Hnarrow & Htall & _).
  - apply (unitDraws_const 0.25). lra.
  - left. reflexivity.
  - split; [apply Hnarrow | apply Htall]; lra.
Defined.

(** ** Canvas paths *)

(** X18.  The path of [drawRoundedRect] is closed: it ends on the point it
    starts from.  With a non-negative width, height and radius every point
    it goes through, control points included, lies in the rectangle
    [x, x + width] x [y, y + height]: the corner radius is cut down to half
    the smaller side. *)
Theorem rounded_rect_stays_inside (rx ry width height radius : R) :
  let points := pathPoints (drawRoundedRect rx ry width height radius) in
  hd_error points = Some (last points zero)
  /\ (0 <= width -> 0 <= height -> 0 <= radius ->
      Forall (fun p => rx <= x p <= rx + width /\ ry <= y p <= ry + height)
        points).
Proof.
  cbv zeta. unfold drawRoundedRect.
  set (r := Rmin (Rmin radius (width / 2)) (height / 2)).
  cbn [pathPoints flat_map opPoints app last hd_error].
  split; [reflexivity |].
  intros Hw Hh Hr.
  assert (Hr0 : 0 <= r /\ r <= width / 2 /\ r <= height / 2).
  { unfold r, Rmin. repeat (destruct (Rle_dec _ _)); lra. }
  repeat (apply Forall_cons; [cbn [x y]; lra |]).
  apply Forall_nil.
Qed.

Lemma rounded_rect_stays_inside_witness :
  Forall (fun p => 80 <= x p <= 80 + 40 /\ 80 <= y p <= 80 + 40)
    (pathPoints (drawRoundedRect 80 80 40 40 36)).
Proof.
  apply (rounded_rect_stays_inside 80 80 40 40 36); lra.
Defined.

Lemma nth_error_Some_lt {A : Type} (l : list A) (n : nat) (a : A) :
  nth_error l n = Some a -> (n < List.length l)%nat.
Proof. intros H. apply nth_error_Some. rewrite H. discriminate. Qed.

Lemma on_circle (angle radius : R) :
  cos angle * radius * (cos angle * radius)
  + sin angle * radius * (sin angle * radius) = radius * radius.
Proof.
  pose proof (sin2_cos2 angle) as H. unfold Rsqr in H. nra.
Qed.

(** X19.  [drawStar] draws a polygon of ten vertices around the origin of
    the translated and rotated frame: the vertices of even index lie on the
    circle of the given radius, those of odd index on the circle of 0.46
    times that radius, and the first one is the point (radius, 0). *)
Theorem star_has_ten_vertices
    (position : Vec2) (radius rotation : R) (color : string) :
  let vs := vertices (drawStar position radius rotation color) in
  List.length vs = 10%nat
  /\ hd_error vs = Some {| x := radius; y := 0 |}
  /\ (forall k v,
         nth_error vs (2 * k) = Some v ->
         x v * x v + y v * y v = radius * radius)
  /\ (forall k v,
         nth_error vs (2 * k + 1) = Some v ->
         x v * x v + y v * y v = radius * 0.46 * (radius * 0.46)).
Proof.
  cbv zeta. unfold drawStar.
  cbn [vertices flat_map app map seq Nat.mul Nat.add Nat.modulo Nat.divmod
       Nat.eqb fst snd Nat.sub].
  split; [reflexivity |].
  split.
  - cbn [hd_error]. f_equal.
    replace (PI / INR 5 * INR 0) with 0 by (cbn; lra).
    rewrite cos_0, sin_0. apply vec2_eq; cbn; ring.
  - split; intros k v Hv.
    + pose proof Hv as Hk. apply nth_error_Some_lt in Hk.
      cbn [List.length] in Hk.
      do 5 (destruct k as [| k];
            [cbn in Hv; injection Hv as <-; cbn [x y]; apply on_circle |]).
      lia.
    + pose proof Hv as Hk. apply nth_error_Some_lt in Hk.
      cbn [List.length] in Hk.
      do 5 (destruct k as [| k];
            [cbn in Hv; injection Hv as <-; cbn [x y]; apply on_circle |]).
      lia.
Qed.

Lemma star_has_ten_vertices_witness :
  let v := {| x := cos (PI / INR 5 * INR 3) * (14 * 0.46);
              y := sin (PI / INR 5 * INR 3) * (14 * 0.46) |} in
  x v * x v + y v * y v = 14 * 0.46 * (14 * 0.46).
Proof.
  cbv zeta.
  destruct (star_has_ten_vertices {| x := 305; y := 305 |} 14 0
              "rgba(255, 244, 132, 0.95)") as (_ & _ & _ & Hodd).
  apply (Hodd 1%nat). reflexivity.
Defined.

(** ** Publications, again *)

(** X20.  A frame publishes exactly when its wall-clock time is at least
    120 ms after the last publication, and what it publishes is the state
    at the end of that frame: the elapsed time, the collected count and the
    distance between leader and follower, which is never negative. *)
Theorem publication_is_current (f : Frame) (st : State) :
  let st' := fst (step f st) in
  (UI_INTERVAL <= now f - lastUiUpdate st <->
   exists ui, snd (step f st) = Some ui)
  /\ (forall ui,
         snd (step f st) = Some ui ->
         time ui = timeRef st'
         /\ collected ui = collectedRef st'
         /\ distance ui = length (between (oliveRef st') (aksRef st'))
         /\ 0 <= distance ui).
Proof.
  cbv zeta. split.
  - split; [apply step_loud |].
    intros [ui Hpub]. now apply (step_publication f st ui).
  - intros ui Hpub.
    destruct (step_publication f st ui Hpub) as (Hdue & _ & Htime & Hcount & _).
    pose proof (step_published f st) as Hstep. cbv zeta in Hstep.
    rewrite Hpub, updateUiState_publishes in Hstep by exact Hdue.
    injection Hstep as _ Hui.
    split; [exact Htime |]. split; [exact Hcount |].
    rewrite Hui. cbn [distance]. unfold between.
    split; [reflexivity | apply length_nonneg].
Qed.

Lemma publication_is_current_witness :
  exists ui,
    snd (step (frameAt 0.25 800 600 120) (started 0.25 800 600)) = Some ui.
Proof.
  apply (publication_is_current
           (frameAt 0.25 800 600 120) (started 0.25 800 600)).
  unfold UI_INTERVAL. cbn. lra.
Defined.

(** X21.  The panel shows dashes for a published pace exactly when nothing
    has been collected yet or no time has elapsed: stars taken on a frame
    at elapsed time 0 still leave the pace shown as dashes. *)
Theorem dashes_until_time_and_stars (f : Frame) (st : State) (ui : UiState) :
  snd (step f st) = Some ui ->
  let st' := fst (step f st) in
  avgPace ui = Dashes <-> collectedRef st' = 0%nat \/ timeRef st' = 0.
Proof.
  intros Hpub. cbv zeta.
  destruct (step_publication f st ui Hpub) as (_ & _ & _ & _ & Hpace).
  unfold avgPace. rewrite Hpace.
  destruct (Nat.eqb_spec (collectedRef (fst (step f st))) 0) as [Hnone | Hsome].
  - destruct (Req_dec_T 0 0); [| lra]. split; [now left | reflexivity].
  - assert (Hpos : 0 < INR (collectedRef (fst (step f st))))
      by (apply lt_0_INR; lia).
    destruct (Req_dec_T _ 0) as [Hzero | Hnz].
    + split; [| reflexivity]. intros _. right.
      apply (Rmult_eq_compat_r (INR (collectedRef (fst (step f st))))) in Hzero.
      rewrite Rmult_0_l in Hzero. rewrite <- Hzero. field. lra.
    + split; [discriminate |].
      intros [Hnone | Htime]; [contradiction |].
      exfalso. apply Hnz. rewrite Htime. field. lra.
Qed.

Lemma dashes_until_time_and_stars_witness :
  let f := frameAt 0.25 800 500 120 in
  let st' := fst (step f (started 0.25 800 500)) in
  avgPace {| time := timeRef st';
             collected := 0;
             distance := length {| x := x (aksRef st') - x (oliveRef st');
                                   y := y (aksRef st') - y (oliveRef st') |};
             pace := 0 |} = Dashes.
Proof.
  cbv zeta.
  apply (dashes_until_time_and_stars
           (frameAt 0.25 800 500 120) (started 0.25 800 500)).
  - apply quiet_start_publishes.
  - left. apply quiet_start_publishes.
Defined.

End GameSpec.
